(** * Fork-join parallel primitives of [detail/parallel-inl.h]

    A shallow embedding of the header's function templates and the
    properties of their partitioning, reduction and merge sort.

    Conventions of the embedding.
    - [IndexType] is a template parameter of the source, a built-in integer
      type.  An index is a [Z]; the type is described by its signedness and
      width, and every sum the partitioning code computes in it
      ([end - start + 1], [start + slice], [i2 + slice]) is reduced into its
      range, see [wrap].  The counter of a [for (i = start; i < end; ++i)]
      loop never passes [end], so it is incremented without reduction.
    - The quotient [n / static_cast<double>(numThreads)] is computed in
      binary64 arithmetic, see [round_div].
    - [size_t] positions inside an array and the [unsigned int] thread
      budget are modelled by [nat]: every such value the code computes is
      bounded by the array size or by the budget it started from, so no
      wrap-around can occur ([i + 1 < numThreads] is only evaluated for
      [i < numThreads], [numThreads - numThreads / 2] never underflows).
    - A callable that mutates captured state is a state transformer; the
      sequence of calls it receives is observed by running the function
      with a callable that records its arguments.
    - [schedule] runs its task inline, hence so does [async]: the embedding
      is sequential, in launch order.
    - An array is a [list]; an iterator is an offset into it.  An access
      outside the array (undefined behaviour in the source) yields [None]. *)

From Stdlib Require Import ZArith Lia SpecFloat.
From stdpp Require Import base tactics option list sorting.
From Equations Require Import Equations.

Local Open Scope Z_scope.

(** ** Execution policy and worker budget *)

Inductive ExecutionPolicy := kSerial | kParallel.

(** [constants.h] is not among the sources; [kZeroSize] is the lower bound of
    the copy-back loop of [merge] and of the fill loop: zero, as a [size_t]. *)
Definition kZeroSize : Z := 0.

(** The worker budget every entry point derives from the policy and from the
    value [numThreadsHint] returned by [maxNumberOfThreads()]
    (lines 157-161, 253-257 and 319-323). *)
Definition resolveNumThreads (policy : ExecutionPolicy) (numThreadsHint : nat) : nat :=
  match policy with
  | kParallel => if Nat.eqb numThreadsHint 0 then 8%nat else numThreadsHint
  | kSerial => 1%nat
  end.

(** ** Task scheduling (lines 14-36) *)

Definition schedule {S : Type} (fcn : S -> S) : S -> S := fun s => fcn s.

(** [async] packages the task, hands it to [schedule] and returns the future;
    the task has run when the future is returned. *)
Definition async {S : Type} (fcn : S -> S) : S -> S := schedule (fun s => fcn s).

(** ** Per-index loop (lines 129-147) *)

Section IndexLoop.
Context {S : Type}.
Variable func : Z -> S -> S.
Variable end_ : Z.

(** [for (auto i = start; i < end; ++i) func(i);] *)
Equations? index_loop (i : Z) (s : S) : S by wf (Z.to_nat (end_ - i)) lt :=
  index_loop i s with Z_lt_dec i end_ := {
    | left _ => index_loop (i + 1) (func i s)
    | right _ => s }.
Proof. lia. Qed.
End IndexLoop.

(** The OpenMP pragma of the parallel branch distributes the iterations of
    the very same loop among the threads; each iteration is still executed
    once, in an order the runtime chooses.  The embedding runs them in index
    order, one of the admissible schedules. *)
Definition parallelFor {S : Type} (start end_ : Z) (func : Z -> S -> S)
    (policy : ExecutionPolicy) (s : S) : S :=
  if start >? end_ then s
  else match policy with
       | kParallel => index_loop func end_ start s
       | kSerial => index_loop func end_ start s
       end.

(** The indices [parallelFor] hands to its callable, in call order. *)
Definition parallelFor_calls (start end_ : Z) (policy : ExecutionPolicy) : list Z :=
  parallelFor start end_ (fun i tr => tr ++ [i]) policy [].

(** ** Index arithmetic *)

(** The integer type a function template is instantiated with: signed or
    unsigned, of [bits] bits.  (A type narrower than [int] cannot be used for
    the partitioning functions: [std::min(start + slice, end)] would mix the
    promoted sum with an [IndexType].) *)
Record IndexType := mkIndexType { is_signed : bool; bits : positive }.

Definition size_t : IndexType := mkIndexType false 64.
Definition ptrdiff_t : IndexType := mkIndexType true 64.

Definition index_min (ty : IndexType) : Z :=
  if is_signed ty then - 2 ^ (Z.pos (bits ty) - 1) else 0.

Definition index_max (ty : IndexType) : Z :=
  if is_signed ty then 2 ^ (Z.pos (bits ty) - 1) - 1 else 2 ^ Z.pos (bits ty) - 1.

Definition in_range (ty : IndexType) (z : Z) : bool :=
  (index_min ty <=? z) && (z <=? index_max ty).

(** The value of type [ty] that an arithmetic result [z] becomes: [z] modulo
    [2 ^ bits] for an unsigned type, the two's complement representative for
    a signed one.  (Signed overflow, and the conversion of a [double] outside
    the range of the type, are undefined in the source; [wrap] is what the
    two's complement machines do, and [no_overflow] below says when neither
    happens.) *)
Definition wrap (ty : IndexType) (z : Z) : Z :=
  index_min ty + (z - index_min ty) mod 2 ^ Z.pos (bits ty).

(** ** Slicing and the launch loop (lines 163-181 and 259-287) *)

(** Conversion of an integer to [double]: the nearest binary64 number, ties
    to even. *)
Definition to_double (z : Z) : spec_float := binary_normalize 53 1024 z 0 false.

(** [std::round]: the nearest integer, halves away from zero.  (An infinity
    or a NaN only arises from a division by zero workers, which
    [resolveNumThreads] excludes.) *)
Definition std_round (x : spec_float) : Z :=
  match x with
  | S754_finite s m e =>
      let magnitude :=
        if 0 <=? e then Z.pos m * 2 ^ e
        else (Z.pos m + 2 ^ (- e - 1)) / 2 ^ (- e) in
      if s then - magnitude else magnitude
  | _ => 0
  end.

(** [std::round(n / static_cast<double>(numThreads))]: [n] is converted to
    [double] for the division, the quotient is rounded to binary64 and then
    to an integer. *)
Definition round_div (n : Z) (numThreads : nat) : Z :=
  std_round (SFdiv 53 1024 (to_double n) (to_double (Z.of_nat numThreads))).

(** [IndexType n = end - start + 1;
     IndexType slice = (IndexType)std::round(n / static_cast<double>(numThreads));
     slice = std::max(slice, IndexType(1));] *)
Definition sliceSize (ty : IndexType) (start end_ : Z) (numThreads : nat) : Z :=
  let n := wrap ty (end_ - start + 1) in
  let slice := wrap ty (round_div n numThreads) in
  Z.max slice 1.

Section LaunchLoop.
Context {S : Type}.
Variable ty : IndexType.
(** The task launched for a slice; [parallelReduce] also passes the loop
    counter [tid]. *)
Variable launch : nat -> Z -> Z -> S -> S.
Variables (end_ slice : Z) (numThreads : nat).

(** [for (; tid + 1 < numThreads && i1 < end; ++tid)
       { launch(i1, i2, tid); i1 = i2; i2 = min(i2 + slice, end); }]
    returning the final [tid] and [i1]. *)
Equations? launchLoop (tid : nat) (i1 i2 : Z) (s : S) : nat * Z * S
  by wf (numThreads - tid)%nat lt :=
  launchLoop tid i1 i2 s with lt_dec (tid + 1) numThreads, Z_lt_dec i1 end_ := {
    | left _, left _ =>
        launchLoop (tid + 1)%nat i2 (Z.min (wrap ty (i2 + slice)) end_)
                   (async (launch tid i1 i2) s)
    | _, _ => (tid, i1, s) }.
Proof. lia. Qed.
End LaunchLoop.

(** The body of [parallelRangeFor] once the worker budget is known. *)
Definition rangeFor_with {S : Type} (ty : IndexType) (numThreads : nat)
    (start end_ : Z) (func : Z -> Z -> S -> S) (s : S) : S :=
  let slice := sliceSize ty start end_ numThreads in
  let i1 := start in
  let i2 := Z.min (wrap ty (start + slice)) end_ in
  let '(_, i1, s) :=
    launchLoop ty (fun _ k1 k2 => func k1 k2) end_ slice numThreads 0%nat i1 i2 s in
  if i1 <? end_ then async (func i1 end_) s else s.

Definition parallelRangeFor {S : Type} (ty : IndexType) (start end_ : Z)
    (func : Z -> Z -> S -> S) (policy : ExecutionPolicy) (numThreadsHint : nat)
    (s : S) : S :=
  if start >? end_ then s
  else rangeFor_with ty (resolveNumThreads policy numThreadsHint) start end_ func s.

(** The sub-ranges handed to the callable, in call order. *)
Definition record_range (k1 k2 : Z) (tr : list (Z * Z)) : list (Z * Z) :=
  tr ++ [(k1, k2)].

Definition rangeFor_calls (ty : IndexType) (numThreads : nat) (start end_ : Z)
    : list (Z * Z) :=
  rangeFor_with ty numThreads start end_ record_range [].

Definition parallelRangeFor_calls (ty : IndexType) (start end_ : Z)
    (policy : ExecutionPolicy) (numThreadsHint : nat) : list (Z * Z) :=
  parallelRangeFor ty start end_ record_range policy numThreadsHint [].

(** ** Checked array accesses *)

Definition load {A : Type} (l : list A) (i : nat) : option A := l !! i.

Definition store {A : Type} (l : list A) (i : nat) (x : A) : option (list A) :=
  if decide (i < length l)%nat then Some (<[i := x]> l) else None.

(** ** Reduction (lines 244-303) *)

Section Reduce.
Context {Value : Type}.
Variable ty : IndexType.
Variable identity : Value.
Variable func : Z -> Z -> Value -> Value.
Variable reduce : Value -> Value -> Value.

(** [results[tid] = func(k1, k2, identity);] *)
Definition launchRange (tid : nat) (k1 k2 : Z) (results : option (list Value))
    : option (list Value) :=
  results ≫= fun r => store r tid (func k1 k2 identity).

(** [for (const Value& val : results) finalResult = reduce(val, finalResult);] *)
Definition gather (results : list Value) : Value :=
  foldl (fun finalResult val => reduce val finalResult) identity results.

Definition reduce_with (numThreads : nat) (start end_ : Z) : option Value :=
  let slice := sliceSize ty start end_ numThreads in
  let results := replicate numThreads identity in
  let i1 := start in
  let i2 := Z.min (wrap ty (start + slice)) end_ in
  let '(tid, i1, results) :=
    launchLoop ty launchRange end_ slice numThreads 0%nat i1 i2 (Some results) in
  let results :=
    if i1 <? end_ then async (launchRange tid i1 end_) results else results in
  gather <$> results.

Definition parallelReduce (start end_ : Z) (policy : ExecutionPolicy)
    (numThreadsHint : nat) : option Value :=
  if start >? end_ then Some identity
  else reduce_with (resolveNumThreads policy numThreadsHint) start end_.
End Reduce.

(** ** Fill (lines 115-126) *)

Section Fill.
Context {T : Type}.

(** [begin[i] = value;] *)
Definition fill_at (begin : nat) (value : T) (i : Z) (arr : option (list T))
    : option (list T) :=
  arr ≫= fun a => store a (begin + Z.to_nat i) value.

Definition parallelFill (begin end_ : nat) (value : T) (policy : ExecutionPolicy)
    (arr : list T) : option (list T) :=
  let diff := Z.of_nat end_ - Z.of_nat begin in
  if diff <=? 0 then Some arr
  else
    let size := diff in
    parallelFor kZeroSize size (fill_at begin value) policy (Some arr).
End Fill.

(** ** Merge sort (lines 38-113 and 305-327) *)

(** What a run of the sort did, in program order: the calls of [std::sort],
    the two [launchRange] tasks of a recursive split with the arguments they
    pass on, and the calls of [merge]. *)
Inductive SortEvent :=
| StdSortCall (a size : nat)
| LaunchRangeCall (begin k2 temp numThreads : nat)
| MergeCall (a size temp : nat).

(** The array being sorted, the scratch vector, and the record of calls. *)
Record SortState (A : Type) := mkSortState {
  main : list A;
  scratch : list A;
  events : list SortEvent
}.
Arguments mkSortState {A} _ _ _.
Arguments main {A} _.
Arguments scratch {A} _.
Arguments events {A} _.

Definition log_event {A : Type} (e : SortEvent) (st : SortState A) : SortState A :=
  mkSortState (main st) (scratch st) (events st ++ [e]).

Section Sort.
Context {A : Type}.
(** [std::sort] of the C++ standard library. *)
Variable std_sort : (A -> A -> bool) -> list A -> list A.
(** The default of [parallelFor]'s policy argument, which [merge] relies on;
    it is declared in [parallel.h], not among the sources. *)
Variable defaultPolicy : ExecutionPolicy.
(** The value-initialised element of [std::vector<value_type> temp(size)]. *)
Variable value_init : A.
Variable compareFunction : A -> A -> bool.

Section MergeLoops.
Variable arr : list A.
Variables a size temp : nat.

(** [compareFunction(a[i1], a[i2])] *)
Definition compare_at (i1 i2 : nat) : option bool :=
  x ← load arr (a + i1); y ← load arr (a + i2); Some (compareFunction x y).

(** [temp[tempi] = a[i];] *)
Definition emit (i tempi : nat) (tmp : list A) : option (list A) :=
  x ← load arr (a + i); store tmp (temp + tempi) x.

(** [while (i1 < size / 2 && i2 < size)] (lines 52-61). *)
Equations? merge_both (i1 i2 tempi : nat) (tmp : list A)
    : option (nat * nat * nat * list A)
  by wf ((size / 2 - i1) + (size - i2))%nat lt :=
  merge_both i1 i2 tempi tmp with lt_dec i1 (size / 2), lt_dec i2 size := {
    | left _, left _ with compare_at i1 i2 := {
        | Some true with emit i1 tempi tmp := {
            | Some tmp' => merge_both (i1 + 1)%nat i2 (tempi + 1)%nat tmp'
            | None => None }
        | Some false with emit i2 tempi tmp := {
            | Some tmp' => merge_both i1 (i2 + 1)%nat (tempi + 1)%nat tmp'
            | None => None }
        | None => None }
    | _, _ => Some (i1, i2, tempi, tmp) }.
Proof. all: lia. Qed.

(** [while (i < bound) { temp[tempi] = a[i]; i++; tempi++; }]: the loops
    of lines 63-67 ([i1], [size / 2]) and 69-73 ([i2], [size]). *)
Equations? copy_rest (bound : nat) (i tempi : nat) (tmp : list A)
    : option (nat * nat * list A)
  by wf (bound - i)%nat lt :=
  copy_rest bound i tempi tmp with lt_dec i bound := {
    | left _ with emit i tempi tmp := {
        | Some tmp' => copy_rest bound (i + 1)%nat (tempi + 1)%nat tmp'
        | None => None }
    | right _ => Some (i, tempi, tmp) }.
Proof. all: lia. Qed.
End MergeLoops.

(** [a[i] = temp[i];] of the copy-back loop (line 76). *)
Definition copy_back (a temp : nat) (tmp : list A) (i : Z) (arr : option (list A))
    : option (list A) :=
  arr ≫= fun l => x ← load tmp (temp + Z.to_nat i); store l (a + Z.to_nat i) x.

Definition merge (a size temp : nat) (st : SortState A) : option (SortState A) :=
  let arr := main st in
  let i1 := 0%nat in
  let i2 := (size / 2)%nat in
  let tempi := 0%nat in
  '(i1, i2, tempi, tmp) ← merge_both arr a size temp i1 i2 tempi (scratch st);
  '(i1, tempi, tmp) ← copy_rest arr a temp (size / 2) i1 tempi tmp;
  '(i2, tempi, tmp) ← copy_rest arr a temp size i2 tempi tmp;
  arr' ← parallelFor kZeroSize (Z.of_nat size) (copy_back a temp tmp)
                     defaultPolicy (Some arr);
  Some (mkSortState arr' tmp (events st ++ [MergeCall a size temp])).

(** [std::sort(a, a + size, compareFunction);] *)
Definition std_sort_range (a size : nat) (st : SortState A) : option (SortState A) :=
  let arr := main st in
  if decide (a + size <= length arr)%nat then
    Some (mkSortState
            (take a arr ++ std_sort compareFunction (take size (drop a arr))
                  ++ drop (a + size) arr)
            (scratch st)
            (events st ++ [StdSortCall a size]))
  else None.

(** The two tasks of a split are handed to [async], which runs each of them
    at once: the left half is sorted, then the right half, then both are
    merged. *)
Equations? parallelMergeSort (a size temp numThreads : nat) (st : SortState A)
    : option (SortState A) by wf numThreads lt :=
  parallelMergeSort a size temp numThreads st with Nat.eq_dec numThreads 1%nat := {
    | left _ => std_sort_range a size st
    | right _ with lt_dec 1%nat numThreads := {
        | left _
          with parallelMergeSort a (size / 2) temp (numThreads / 2)
                 (log_event (LaunchRangeCall a (size / 2) temp (numThreads / 2)) st) := {
            | Some st1
              with parallelMergeSort (a + size / 2) (size - size / 2)
                     (temp + size / 2) (numThreads - numThreads / 2)
                     (log_event (LaunchRangeCall (a + size / 2) (size - size / 2)
                                   (temp + size / 2) (numThreads - numThreads / 2))
                                st1) := {
                | Some st2 => merge a size temp st2
                | None => None }
            | None => None }
        | right _ => Some st } }.
Proof.
  - change (numThreads / 2 < numThreads)%nat. apply Nat.div_lt; lia.
  - change (numThreads - numThreads / 2 < numThreads)%nat.
    assert (0 < numThreads / 2)%nat by (apply Nat.div_str_pos; lia). lia.
Qed.

Definition parallelSort (begin end_ : nat) (policy : ExecutionPolicy)
    (numThreadsHint : nat) (arr : list A) : option (list A) :=
  if (end_ <? begin)%nat then Some arr
  else
    let size := (end_ - begin)%nat in
    let temp := replicate size value_init in
    let numThreads := resolveNumThreads policy numThreadsHint in
    main <$> parallelMergeSort begin size 0 numThreads (mkSortState arr temp []).

(** The calls made by [parallelMergeSort] on a given state. *)
Definition mergeSort_events (a size temp numThreads : nat) (st : SortState A)
    : option (list SortEvent) :=
  events <$> parallelMergeSort a size temp numThreads
               (mkSortState (main st) (scratch st) []).
End Sort.

(** A stand-in for [std::sort] on which the sort can be run: straight
    insertion, which is what the library implementations do on short ranges. *)
Section InsertionSort.
Context {A : Type}.
Variable cmp : A -> A -> bool.

Fixpoint insert_sorted (x : A) (l : list A) : list A :=
  match l with
  | [] => [x]
  | y :: l' => if cmp x y then x :: l else y :: insert_sorted x l'
  end.

Definition insertion_sort (l : list A) : list A :=
  foldl (fun acc x => insert_sorted x acc) [] l.
End InsertionSort.

(** ** Vocabulary of the properties *)

(** The requirement [std::sort] and the merge put on a comparator. *)
Record StrictWeakOrder {A : Type} (cmp : A -> A -> bool) : Prop := {
  swo_irrefl : forall x, cmp x x = false;
  swo_trans : forall x y z, cmp x y = true -> cmp y z = true -> cmp x z = true;
  swo_tied_trans : forall x y z,
    cmp x y = false -> cmp y x = false -> cmp y z = false -> cmp z y = false ->
    cmp x z = false /\ cmp z x = false
}.

(** Neither element is strictly less than the other. *)
Definition tied {A : Type} (cmp : A -> A -> bool) (x y : A) : Prop :=
  cmp x y = false /\ cmp y x = false.

(** No element is strictly less than an element placed before it. *)
Definition non_decreasing {A : Type} (cmp : A -> A -> bool) (l : list A) : Prop :=
  forall i j x y, (i < j)%nat -> l !! i = Some x -> l !! j = Some y -> cmp y x = false.

(** What the C++ standard promises of [std::sort]. *)
Definition std_sort_contract {A : Type}
    (std_sort : (A -> A -> bool) -> list A -> list A) : Prop :=
  forall cmp l, StrictWeakOrder cmp ->
    std_sort cmp l ≡ₚ l /\ non_decreasing cmp (std_sort cmp l).

(** The [size] elements of [l] from offset [begin] on. *)
Definition sub_array {A : Type} (l : list A) (begin size : nat) : list A :=
  take size (drop begin l).

(** The two-pointer merge as a function of the two halves: the left head is
    taken when it is strictly less than the right head, else the right head. *)
Definition merge_lists {A : Type} (cmp : A -> A -> bool) : list A -> list A -> list A :=
  list_merge (fun x y => Is_true (cmp x y)).

(** A chain of non-empty ranges, each starting where the previous one ended,
    leading from [from] to [to]. *)
Fixpoint contiguous (from to : Z) (l : list (Z * Z)) : Prop :=
  match l with
  | [] => from = to
  | r :: l' => r.1 = from /\ r.1 < r.2 /\ contiguous r.2 to l'
  end.

(** The [results] vector of [parallelReduce] once the partitions [tr] have
    been processed: one partial per partition, [identity] in the other slots. *)
Definition slots {Value : Type} (identity : Value) (func : Z -> Z -> Value -> Value)
    (numThreads : nat) (tr : list (Z * Z)) : list Value :=
  ((fun r => func r.1 r.2 identity) <$> tr)
    ++ replicate (numThreads - length tr) identity.

(** An array of keyed records compared on the key alone. *)
Definition key_less (x y : Z * Z) : bool := x.1 <? y.1.

Global Instance tied_dec {A : Type} (cmp : A -> A -> bool) (x y : A) :
  Decision (tied cmp x y).
Proof. unfold tied. apply _. Defined.

(** [x] may stand before [y]: [y] is not strictly less than [x]. *)
Definition not_after {A : Type} (cmp : A -> A -> bool) (x y : A) : Prop :=
  cmp y x = false.

(** The number of elements strictly less than [v]. *)
Definition below {A : Type} (cmp : A -> A -> bool) (v : A) (l : list A) : nat :=
  length (filter (fun e => Is_true (cmp e v)) l).

(** The three scanning loops of [merge] (lines 52-73), from an arbitrary
    cursor. *)
Definition scan_from {A : Type} (cmp : A -> A -> bool) (arr : list A)
    (a size temp i1 i2 tempi : nat) (tmp : list A) : option (nat * nat * list A) :=
  '(i1, i2, tempi, tmp) ← merge_both cmp arr a size temp i1 i2 tempi tmp;
  '(i1, tempi, tmp) ← copy_rest arr a temp (size / 2) i1 tempi tmp;
  '(i2, tempi, tmp) ← copy_rest arr a temp size i2 tempi tmp;
  Some (i2, tempi, tmp).

(** The calls one invocation of [parallelMergeSort] with a positive budget
    makes: the sequential sort alone, or the two launches, each followed by
    the calls of its task, and the merge. *)
Definition dispatch_events (a size temp numThreads : nat) (ev : list SortEvent) : Prop :=
  if decide (numThreads = 1%nat) then ev = [StdSortCall a size]
  else exists evL evR,
      ev = LaunchRangeCall a (size / 2) temp (numThreads / 2) :: evL
           ++ LaunchRangeCall (a + size / 2) (size - size / 2) (temp + size / 2)
                (numThreads - numThreads / 2) :: evR
           ++ [MergeCall a size temp].

(** ** Multi-dimensional variants (lines 191-242) *)

(** The outermost dimension is handed to the one-dimensional [parallelFor];
    each of its iterations runs the nested sequential loop over the rows. *)
Definition parallelFor2D {S : Type} (beginIndexX endIndexX beginIndexY endIndexY : Z)
    (function : Z -> Z -> S -> S) (policy : ExecutionPolicy) (s : S) : S :=
  parallelFor beginIndexY endIndexY
    (fun j => index_loop (fun i => function i j) endIndexX beginIndexX)
    policy s.

Definition parallelRangeFor2D {S : Type} (ty : IndexType)
    (beginIndexX endIndexX beginIndexY endIndexY : Z)
    (function : Z -> Z -> Z -> Z -> S -> S) (policy : ExecutionPolicy)
    (numThreadsHint : nat) (s : S) : S :=
  parallelRangeFor ty beginIndexY endIndexY
    (fun jBegin jEnd => function beginIndexX endIndexX jBegin jEnd)
    policy numThreadsHint s.

Definition parallelFor3D {S : Type}
    (beginIndexX endIndexX beginIndexY endIndexY beginIndexZ endIndexZ : Z)
    (function : Z -> Z -> Z -> S -> S) (policy : ExecutionPolicy) (s : S) : S :=
  parallelFor beginIndexZ endIndexZ
    (fun k =>
       index_loop
         (fun j => index_loop (fun i => function i j k) endIndexX beginIndexX)
         endIndexY beginIndexY)
    policy s.

Definition parallelRangeFor3D {S : Type} (ty : IndexType)
    (beginIndexX endIndexX beginIndexY endIndexY beginIndexZ endIndexZ : Z)
    (function : Z -> Z -> Z -> Z -> Z -> Z -> S -> S) (policy : ExecutionPolicy)
    (numThreadsHint : nat) (s : S) : S :=
  parallelRangeFor ty beginIndexZ endIndexZ
    (fun kBegin kEnd =>
       function beginIndexX endIndexX beginIndexY endIndexY kBegin kEnd)
    policy numThreadsHint s.

(** The index tuples, and the range tuples, handed to the callable, in call
    order. *)
Definition parallelFor2D_calls (beginIndexX endIndexX beginIndexY endIndexY : Z)
    (policy : ExecutionPolicy) : list (Z * Z) :=
  parallelFor2D beginIndexX endIndexX beginIndexY endIndexY
    (fun i j tr => tr ++ [(i, j)]) policy [].

Definition parallelFor3D_calls
    (beginIndexX endIndexX beginIndexY endIndexY beginIndexZ endIndexZ : Z)
    (policy : ExecutionPolicy) : list (Z * Z * Z) :=
  parallelFor3D beginIndexX endIndexX beginIndexY endIndexY beginIndexZ endIndexZ
    (fun i j k tr => tr ++ [(i, j, k)]) policy [].

Definition parallelRangeFor2D_calls (ty : IndexType)
    (beginIndexX endIndexX beginIndexY endIndexY : Z)
    (policy : ExecutionPolicy) (numThreadsHint : nat) : list (Z * Z * Z * Z) :=
  parallelRangeFor2D ty beginIndexX endIndexX beginIndexY endIndexY
    (fun iBegin iEnd jBegin jEnd tr => tr ++ [(iBegin, iEnd, jBegin, jEnd)])
    policy numThreadsHint [].

Definition parallelRangeFor3D_calls (ty : IndexType)
    (beginIndexX endIndexX beginIndexY endIndexY beginIndexZ endIndexZ : Z)
    (policy : ExecutionPolicy) (numThreadsHint : nat)
    : list (Z * Z * Z * Z * Z * Z) :=
  parallelRangeFor3D ty beginIndexX endIndexX beginIndexY endIndexY
    beginIndexZ endIndexZ
    (fun iBegin iEnd jBegin jEnd kBegin kEnd tr =>
       tr ++ [(iBegin, iEnd, jBegin, jEnd, kBegin, kEnd)])
    policy numThreadsHint [].

(** ** Sort with the default comparator (lines 329-336) *)

(** [less] stands for [std::less<value_type>()], the [operator<] of the
    element type. *)
Definition parallelSort_less {A : Type}
    (std_sort : (A -> A -> bool) -> list A -> list A)
    (defaultPolicy : ExecutionPolicy) (value_init : A) (less : A -> A -> bool)
    (begin end_ : nat) (policy : ExecutionPolicy) (numThreadsHint : nat)
    (arr : list A) : option (list A) :=
  parallelSort std_sort defaultPolicy value_init less begin end_ policy
               numThreadsHint arr.

(** ** Further vocabulary *)

(** The sub-arrays handed to [std::sort], in call order, as (offset, size). *)
Definition std_sort_ranges (ev : list SortEvent) : list (nat * nat) :=
  omap (fun e => match e with
                 | StdSortCall a size => Some (a, size)
                 | _ => None
                 end) ev.

Definition is_merge (e : SortEvent) : bool :=
  match e with MergeCall _ _ _ => true | _ => false end.

Definition is_launch (e : SortEvent) : bool :=
  match e with LaunchRangeCall _ _ _ _ => true | _ => false end.

(** The number of recorded calls of one kind. *)
Definition count_events (kind : SortEvent -> bool) (ev : list SortEvent) : nat :=
  length (List.filter kind ev).

(** Consecutive sub-arrays (possibly empty) tiling the offsets [from..to). *)
Fixpoint tiles (from to : nat) (l : list (nat * nat)) : Prop :=
  match l with
  | [] => from = to
  | r :: l' => r.1 = from /\ tiles (r.1 + r.2) to l'
  end.

(** The index arithmetic of the partitioning of [start, end) among
    [numThreads] workers stays inside [ty]: the bounds, the element count
    [end - start + 1], the rounded quotient and the largest sum the code
    forms are all values of the type.  The sums are [start + slice] and, in
    the at most [numThreads - 1] rounds of the launch loop, [i2 + slice] with
    [i2] the end of the range just launched. *)
Definition no_overflow (ty : IndexType) (start end_ : Z) (numThreads : nat) : bool :=
  let slice := Z.max (round_div (end_ - start + 1) numThreads) 1 in
  in_range ty start && in_range ty end_
  && in_range ty (end_ - start + 1)
  && in_range ty (round_div (end_ - start + 1) numThreads)
  && in_range ty (Z.min (start + (Z.of_nat numThreads - 1) * slice) end_ + slice).

(** The left fold of a step [op acc (f i)] over the indices of a range. *)
Definition fold_range {V : Type} (op : V -> V -> V) (f : Z -> V) (init : V)
    (k1 k2 : Z) : V :=
  foldl (fun acc i => op acc (f i)) init (seqZ k1 (k2 - k1)).

(** * Properties *)

Local Arguments Nat.div : simpl never.
Local Arguments merge_lists : simpl never.

(** ** Worked scenarios *)
Example parallelFor_squares :
  parallelFor 0 10 (fun i out => <[Z.to_nat i := i * i]> out) kSerial (replicate 10 0)
  = [0; 1; 4; 9; 16; 25; 36; 49; 64; 81].
Proof. reflexivity. Qed.

Example rangeFor_calls_10_by_4 :
  rangeFor_calls size_t 4 0 10 = [(0, 3); (3, 6); (6, 9); (9, 10)].
Proof. vm_compute. reflexivity. Qed.

(** The quotient is formed in [double]: the count [2^54 + 1] is rounded to
    [2^54] before it is divided. *)
Example sliceSize_rounds_in_double : sliceSize size_t 0 (2 ^ 54) 2 = 2 ^ 53.
Proof. vm_compute. reflexivity. Qed.

(** Over the whole range of the index type the count wraps to 0, and the
    slice is clamped to 1. *)
Example sliceSize_of_full_range : sliceSize size_t 0 (2 ^ 64 - 1) 4 = 1.
Proof. vm_compute. reflexivity. Qed.

Example parallelSort_scenario :
  parallelSort (@insertion_sort Z) kParallel 0 Z.ltb 0 5 kParallel 4 [5; 3; 1; 4; 2]
  = Some [1; 2; 3; 4; 5].
Proof. vm_compute. reflexivity. Qed.

(** ** The per-index loop *)

Lemma index_loop_foldl {S} (func : Z -> S -> S) end_ i s :
  index_loop func end_ i s = foldl (fun s i => func i s) s (seqZ i (end_ - i)).
Proof.
  funelim (index_loop func end_ i s).
  - rewrite seqZ_cons by lia. cbn [foldl].
    replace (Z.pred (end_ - i)) with (end_ - (i + 1)) by lia. assumption.
  - rewrite seqZ_nil by lia. reflexivity.
Qed.

Lemma parallelFor_foldl {S} start end_ (func : Z -> S -> S) policy s :
  parallelFor start end_ func policy s
  = foldl (fun s i => func i s) s (seqZ start (end_ - start)).
Proof.
  unfold parallelFor. destruct (Z.gtb_spec start end_).
  - rewrite seqZ_nil by lia. reflexivity.
  - destruct policy; apply index_loop_foldl.
Qed.

Lemma foldl_record {B} (l tr : list B) :
  foldl (fun tr i => tr ++ [i]) tr l = tr ++ l.
Proof.
  revert tr. induction l as [|x l IH]; intros tr; cbn.
  - by rewrite app_nil_r.
  - rewrite IH, <- app_assoc. reflexivity.
Qed.

Lemma parallelFor_calls_seqZ start end_ policy :
  parallelFor_calls start end_ policy = seqZ start (end_ - start).
Proof. unfold parallelFor_calls. rewrite parallelFor_foldl. apply foldl_record. Qed.

Lemma count_occ_seqZ m n i :
  count_occ Z.eq_dec (seqZ m n) i = if decide (m <= i < m + n) then 1%nat else 0%nat.
Proof.
  case_decide as Hi.
  - apply NoDup_count_occ'.
    + apply NoDup_ListNoDup, NoDup_seqZ.
    + apply list_elem_of_In, elem_of_seqZ. lia.
  - apply count_occ_not_In. rewrite <- list_elem_of_In, elem_of_seqZ. lia.
Qed.

(** C7.  For every pair [(start, end)] and both policies, the per-index
    [parallelFor] calls [fn] exactly once on each index [i] with
    [start <= i < end] and on no other index, and not at all when
    [start >= end]; its effect is that of these calls.  The function does not
    consult the worker hint, so this holds whatever the hint is. *)
Theorem parallelFor_visits_each_index_once (start end_ : Z) (policy : ExecutionPolicy) :
  (forall i, count_occ Z.eq_dec (parallelFor_calls start end_ policy) i
             = if decide (start <= i < end_) then 1%nat else 0%nat)
  /\ (parallelFor_calls start end_ policy = [] <-> start >= end_)
  /\ (forall (S : Type) (fn : Z -> S -> S) (s : S),
        parallelFor start end_ fn policy s
        = foldl (fun s i => fn i s) s (parallelFor_calls start end_ policy)).
Proof.
  rewrite parallelFor_calls_seqZ. split; [|split].
  - intros i. rewrite count_occ_seqZ. repeat case_decide; try reflexivity; lia.
  - split.
    + intros H. apply (f_equal length) in H. rewrite length_seqZ in H. simpl in H. lia.
    + intros H. apply seqZ_nil. lia.
  - intros. apply parallelFor_foldl.
Qed.

(** ** Partitioning *)

Lemma contiguous_app a b c l1 l2 :
  contiguous a b l1 -> contiguous b c l2 -> contiguous a c (l1 ++ l2).
Proof.
  revert a. induction l1 as [|r l1 IH]; intros a; cbn.
  - intros ->. done.
  - intros (? & ? & ?) ?. eauto.
Qed.

Lemma contiguous_le a b l : contiguous a b l -> a <= b.
Proof.
  revert a. induction l as [|r l IH]; intros a; cbn.
  - lia.
  - intros (? & ? & H%IH). lia.
Qed.

Lemma contiguous_nil_iff a b l : contiguous a b l -> (l = [] <-> a = b).
Proof.
  destruct l as [|r l]; cbn.
  - done.
  - intros (? & ? & H%contiguous_le). split; [done | lia].
Qed.

Lemma contiguous_concat a b l :
  contiguous a b l ->
  concat ((fun r => seqZ r.1 (r.2 - r.1)) <$> l) = seqZ a (b - a).
Proof.
  revert a. induction l as [|r l IH]; intros a; cbn.
  - intros ->. rewrite seqZ_nil by lia. done.
  - intros (<- & ? & H). pose proof (contiguous_le _ _ _ H).
    rewrite (IH _ H).
    replace (b - r.1) with ((r.2 - r.1) + (b - r.2)) by lia.
    rewrite seqZ_app by lia. do 2 f_equal. lia.
Qed.

Lemma contiguous_lookup a b l i r :
  contiguous a b l -> l !! i = Some r -> a <= r.1 /\ r.1 < r.2 /\ r.2 <= b.
Proof.
  revert a i. induction l as [|r0 l IH]; intros a i; [done|].
  cbn. intros (<- & ? & H). destruct i as [|i]; cbn.
  - intros [= ->]. apply contiguous_le in H. lia.
  - intros Hi. destruct (IH _ _ H Hi) as (? & ? & ?). lia.
Qed.

Lemma contiguous_ordered a b l i j r r' :
  contiguous a b l -> (i < j)%nat -> l !! i = Some r -> l !! j = Some r' ->
  r.2 <= r'.1.
Proof.
  revert a i j. induction l as [|r0 l IH]; intros a i j; [done|].
  cbn. intros (<- & ? & H) Hij. destruct j as [|j]; [lia|].
  destruct i as [|i]; cbn.
  - intros [= ->] Hj. destruct (contiguous_lookup _ _ _ _ _ H Hj). lia.
  - intros Hi Hj. eapply (IH _ i j); eauto with lia.
Qed.

Lemma contiguous_adjacent a b l i r r' :
  contiguous a b l -> l !! i = Some r -> l !! S i = Some r' -> r'.1 = r.2.
Proof.
  revert a i. induction l as [|r0 l IH]; intros a i; [done|].
  cbn. intros (<- & ? & H). destruct i as [|i]; cbn.
  - intros [= ->] Hj. destruct l as [|r1 l]; [done|].
    cbn in *. destruct H as (? & _). congruence.
  - intros Hi Hj. eapply IH; eauto.
Qed.

Lemma contiguous_head a b l r : contiguous a b l -> head l = Some r -> r.1 = a.
Proof. destruct l; cbn; [done|]. intros (? & _) [= ->]. done. Qed.

Lemma contiguous_last a b l r : contiguous a b l -> last l = Some r -> r.2 = b.
Proof.
  revert a. induction l as [|r0 l IH]; intros a; [done|].
  cbn [contiguous]. intros (<- & ? & H). destruct l as [|r1 l].
  - cbn in *. intros [= ->]. done.
  - rewrite last_cons_cons. eauto.
Qed.

(** Values inside the range of the index type are not changed by [wrap]. *)
Lemma index_range_size ty : index_max ty - index_min ty + 1 = 2 ^ Z.pos (bits ty).
Proof.
  unfold index_max, index_min. destruct (is_signed ty); [|lia].
  replace (2 ^ Z.pos (bits ty)) with (2 ^ Z.succ (Z.pos (bits ty) - 1))
    by (f_equal; lia).
  rewrite Z.pow_succ_r by lia. lia.
Qed.

Lemma in_range_spec ty z : in_range ty z = true <-> index_min ty <= z <= index_max ty.
Proof. unfold in_range. rewrite andb_true_iff, !Z.leb_le. done. Qed.

Lemma wrap_in_range ty z : in_range ty z = true -> wrap ty z = z.
Proof.
  intros [? ?]%in_range_spec. unfold wrap. pose proof (index_range_size ty).
  rewrite Z.mod_small by lia. lia.
Qed.

Lemma wrap_between ty z : index_min ty <= z <= index_max ty -> wrap ty z = z.
Proof. intros. by apply wrap_in_range, in_range_spec. Qed.

Lemma sliceSize_pos ty start end_ numThreads : 1 <= sliceSize ty start end_ numThreads.
Proof. unfold sliceSize. lia. Qed.

Lemma no_overflow_spec ty start end_ numThreads :
  no_overflow ty start end_ numThreads = true ->
  index_min ty <= start
  /\ sliceSize ty start end_ numThreads
     = Z.max (round_div (end_ - start + 1) numThreads) 1
  /\ Z.min (start + (Z.of_nat numThreads - 1) * sliceSize ty start end_ numThreads)
           end_
     + sliceSize ty start end_ numThreads <= index_max ty.
Proof.
  unfold no_overflow. cbv zeta. rewrite !andb_true_iff.
  intros ((((Hs & He) & Hn) & Hq) & Hsum).
  assert (sliceSize ty start end_ numThreads
          = Z.max (round_div (end_ - start + 1) numThreads) 1) as Heq.
  { unfold sliceSize. by rewrite (wrap_in_range _ _ Hn), (wrap_in_range _ _ Hq). }
  apply in_range_spec in Hs, Hsum. rewrite Heq. split_and!; [lia | done | lia].
Qed.

(** The launch loop counts its launches, whatever the ranges are. *)
Lemma launchLoop_count ty end_ slice numThreads tid i1 i2 tr :
  (tid + 1 <= numThreads)%nat ->
  exists t' i' new,
    launchLoop ty (fun _ k1 k2 => record_range k1 k2) end_ slice numThreads
               tid i1 i2 tr = (t', i', tr ++ new)
    /\ t' = (tid + length new)%nat /\ (t' + 1 <= numThreads)%nat.
Proof.
  funelim (launchLoop ty (fun _ k1 k2 => record_range k1 k2) end_ slice numThreads
                      tid i1 i2 tr); intros Ht.
  - edestruct H as (t' & i' & new & Heq' & Hlen & Hb); [lia|].
    exists t', i', ((i1, i2) :: new). rewrite Heq'.
    unfold async, schedule, record_range. rewrite <- app_assoc. cbn.
    split_and!; [done | lia | lia].
  - exists tid, i1, []. rewrite app_nil_r. cbn. split_and!; [done | lia | lia].
  - exists tid, i1, []. rewrite app_nil_r. cbn. split_and!; [done | lia | lia].
Qed.

Lemma rangeFor_calls_length ty numThreads start end_ :
  (1 <= numThreads)%nat ->
  (length (rangeFor_calls ty numThreads start end_) <= numThreads)%nat.
Proof.
  intros Hn. unfold rangeFor_calls, rangeFor_with.
  destruct (launchLoop_count ty end_ (sliceSize ty start end_ numThreads) numThreads
              0 start (Z.min (wrap ty (start + sliceSize ty start end_ numThreads)) end_)
              []) as (t' & i' & new & -> & Hlen & Hb); [lia|].
  cbn [app]. destruct (i' <? end_); [|lia].
  unfold async, schedule, record_range. rewrite length_app. cbn. lia.
Qed.

(** While no sum leaves the index type, the loop hands out consecutive
    non-empty ranges. *)
Lemma launchLoop_ranges ty end_ slice numThreads tid i1 i2 tr :
  1 <= slice -> index_min ty <= i1 ->
  Z.min (i1 + (Z.of_nat numThreads - 1 - Z.of_nat tid) * slice) end_ + slice
    <= index_max ty ->
  i1 <= end_ -> i2 = Z.min (i1 + slice) end_ ->
  (tid + 1 <= numThreads)%nat ->
  exists t' i' new,
    launchLoop ty (fun _ k1 k2 => record_range k1 k2) end_ slice numThreads
               tid i1 i2 tr = (t', i', tr ++ new)
    /\ contiguous i1 i' new /\ i' <= end_
    /\ t' = (tid + length new)%nat /\ (t' + 1 <= numThreads)%nat
    /\ (i' < end_ -> (t' + 1)%nat = numThreads).
Proof.
  intros Hs.
  funelim (launchLoop ty (fun _ k1 k2 => record_range k1 k2) end_ slice numThreads
                      tid i1 i2 tr);
    intros Hmin Hmax Hi1 Hi2 Ht.
  - pose proof (Z.mul_nonneg_nonneg (Z.of_nat numThreads - 2 - Z.of_nat tid) slice
                  ltac:(lia) ltac:(lia)) as Hrest.
    edestruct H as (t' & i' & new & Heq' & Hc & Hle & Hlen & Hb & Hfin);
      [done| | | |f_equal; apply wrap_between|lia|]; [lia..|].
    exists t', i', ((i1, i2) :: new). rewrite Heq'.
    unfold async, schedule, record_range. rewrite <- app_assoc. cbn.
    repeat split; try done; try lia.
  - exists tid, i1, []. rewrite app_nil_r. cbn. repeat split; try done; lia.
  - exists tid, i1, []. rewrite app_nil_r. cbn. repeat split; try done; lia.
Qed.

Lemma rangeFor_calls_contiguous ty numThreads start end_ :
  (1 <= numThreads)%nat -> start <= end_ ->
  no_overflow ty start end_ numThreads = true ->
  contiguous start end_ (rangeFor_calls ty numThreads start end_)
  /\ (length (rangeFor_calls ty numThreads start end_) <= numThreads)%nat.
Proof.
  intros Hn Hse (Hmin & _ & Hmax)%no_overflow_spec.
  split; [|by apply rangeFor_calls_length].
  pose proof (sliceSize_pos ty start end_ numThreads) as Hpos.
  pose proof (Z.mul_nonneg_nonneg (Z.of_nat numThreads - 1)
                (sliceSize ty start end_ numThreads) ltac:(lia) ltac:(lia)) as Hrest.
  unfold rangeFor_calls, rangeFor_with.
  rewrite (wrap_between ty (start + _)) by lia.
  destruct (launchLoop_ranges ty end_ (sliceSize ty start end_ numThreads) numThreads
              0 start (Z.min (start + sliceSize ty start end_ numThreads) end_) [])
    as (t' & i' & new & -> & Hc & Hle & Hlen & Hb & Hfin);
    [done|done| |done|done|lia|].
  { by rewrite Z.sub_0_r. }
  cbn [app]. destruct (Z.ltb_spec i' end_) as [Hlt|Hge].
  - unfold async, schedule, record_range.
    eapply contiguous_app; [done|]. cbn. lia.
  - by assert (i' = end_) as -> by lia.
Qed.

(** The claim as worded, for every [start <= end], fails where the index
    arithmetic wraps around: with a 64-bit unsigned index, six indices below
    the top of the type and four workers, the third sum [i2 + slice] wraps to
    0, so an inverted range is handed out and the final range starts over
    from 0, covering the first indices a second time. *)
Lemma parallelRangeFor_partition_counterexample :
  let start := 2 ^ 64 - 6 in
  let end_ := 2 ^ 64 - 1 in
  let calls := parallelRangeFor_calls size_t start end_ kParallel 4 in
  start <= end_
  /\ calls = [(start, start + 2); (start + 2, start + 4); (start + 4, 0); (0, end_)]
  /\ ~ (forall r, r ∈ calls -> start <= r.1 /\ r.1 < r.2 /\ r.2 <= end_)
  /\ ~ (forall i j r r', (i < j)%nat -> calls !! i = Some r -> calls !! j = Some r' ->
          r.2 <= r'.1)
  /\ (exists r r', calls !! 0%nat = Some r /\ calls !! 3%nat = Some r'
                    /\ r.1 <= start < r.2 /\ r'.1 <= start < r'.2).
Proof.
  cbv zeta.
  assert (parallelRangeFor_calls size_t (2 ^ 64 - 6) (2 ^ 64 - 1) kParallel 4
          = [(2 ^ 64 - 6, 2 ^ 64 - 6 + 2); (2 ^ 64 - 6 + 2, 2 ^ 64 - 6 + 4);
             (2 ^ 64 - 6 + 4, 0); (0, 2 ^ 64 - 1)]) as ->
    by (vm_compute; reflexivity).
  split_and!; [lia | done | | |].
  - intros H. specialize (H (2 ^ 64 - 6 + 4, 0)). cbn in H.
    destruct H as (_ & ? & _); [|lia]. do 2 apply list_elem_of_further. constructor.
  - intros H.
    specialize (H 0%nat 3%nat (2 ^ 64 - 6, 2 ^ 64 - 6 + 2) (0, 2 ^ 64 - 1)
                  ltac:(lia) eq_refl eq_refl).
    cbn in H. lia.
  - eexists _, _. split_and!; [reflexivity | reflexivity | cbn; lia..].
Qed.

(** C6 (amended).  For every domain with [start <= end] whose index
    arithmetic stays inside the index type ([no_overflow]: the count, the
    rounded quotient and every sum the code forms are values of the type) and
    every worker count [numThreads >= 1], the sub-ranges [parallelRangeFor]
    hands to its callable are non-empty and lie inside the domain, are
    ordered and pairwise
    disjoint, start at [start], each begin where the previous one ended, end
    exactly at [end], cover exactly the indices of [start, end) once each and
    in order, number at most [numThreads], and there is none exactly when the
    domain is empty. *)
Theorem parallelRangeFor_partition (ty : IndexType) (numThreads : nat)
    (start end_ : Z) :
  (1 <= numThreads)%nat -> start <= end_ ->
  no_overflow ty start end_ numThreads = true ->
  let calls := rangeFor_calls ty numThreads start end_ in
  (forall r, r ∈ calls -> start <= r.1 /\ r.1 < r.2 /\ r.2 <= end_)
  /\ (forall i j r r', (i < j)%nat -> calls !! i = Some r -> calls !! j = Some r' ->
        r.2 <= r'.1)
  /\ (forall r, head calls = Some r -> r.1 = start)
  /\ (forall i r r', calls !! i = Some r -> calls !! S i = Some r' -> r'.1 = r.2)
  /\ (forall r, last calls = Some r -> r.2 = end_)
  /\ concat ((fun r => seqZ r.1 (r.2 - r.1)) <$> calls) = seqZ start (end_ - start)
  /\ (length calls <= numThreads)%nat
  /\ (calls = [] <-> start = end_)
  /\ (forall policy numThreadsHint,
        resolveNumThreads policy numThreadsHint = numThreads ->
        parallelRangeFor_calls ty start end_ policy numThreadsHint = calls).
Proof.
  intros Hn Hse Hno calls.
  destruct (rangeFor_calls_contiguous ty numThreads start end_ Hn Hse Hno)
    as [Hc Hlen].
  fold calls in Hc, Hlen.
  split_and!.
  - intros r [i Hi]%list_elem_of_lookup. eapply contiguous_lookup; eauto.
  - intros. eapply contiguous_ordered; eauto.
  - intros. eapply contiguous_head; eauto.
  - intros. eapply contiguous_adjacent; eauto.
  - intros. eapply contiguous_last; eauto.
  - by apply contiguous_concat.
  - done.
  - by apply contiguous_nil_iff.
  - intros policy hint <-. unfold parallelRangeFor_calls, parallelRangeFor.
    destruct (Z.gtb_spec start end_); [lia | done].
Qed.

Lemma parallelRangeFor_partition_witness :
  let calls := rangeFor_calls size_t 4 0 10 in
  (forall r, r ∈ calls -> 0 <= r.1 /\ r.1 < r.2 /\ r.2 <= 10)
  /\ (forall i j r r', (i < j)%nat -> calls !! i = Some r -> calls !! j = Some r' ->
        r.2 <= r'.1)
  /\ (forall r, head calls = Some r -> r.1 = 0)
  /\ (forall i r r', calls !! i = Some r -> calls !! S i = Some r' -> r'.1 = r.2)
  /\ (forall r, last calls = Some r -> r.2 = 10)
  /\ concat ((fun r => seqZ r.1 (r.2 - r.1)) <$> calls) = seqZ 0 (10 - 0)
  /\ (length calls <= 4)%nat
  /\ (calls = [] <-> 0 = 10)
  /\ (forall policy numThreadsHint,
        resolveNumThreads policy numThreadsHint = 4%nat ->
        parallelRangeFor_calls size_t 0 10 policy numThreadsHint = calls).
Proof.
  apply (parallelRangeFor_partition size_t 4 0 10); [lia | lia | vm_compute; reflexivity].
Defined.

(** ** Reduction *)

Section ReduceFacts.
Context {Value : Type}.
Variable identity : Value.
Variable func : Z -> Z -> Value -> Value.
Variable reduce : Value -> Value -> Value.
Variable numThreads : nat.

Lemma store_slots tr k1 k2 :
  (length tr < numThreads)%nat ->
  store (slots identity func numThreads tr) (length tr) (func k1 k2 identity)
  = Some (slots identity func numThreads (tr ++ [(k1, k2)])).
Proof.
  intros Hlt. unfold store, slots.
  rewrite decide_True.
  2:{ rewrite length_app, length_fmap, length_replicate. lia. }
  f_equal. rewrite fmap_app, length_app, <- app_assoc. cbn.
  rewrite insert_app_r_alt by (rewrite length_fmap; lia).
  rewrite length_fmap, Nat.sub_diag.
  replace (numThreads - length tr)%nat with (S (numThreads - (length tr + 1)))
    by lia.
  reflexivity.
Qed.

Lemma launchLoop_reduce ty end_ slice tid i1 i2 tr :
  length tr = tid ->
  forall t' i' tr',
    launchLoop ty (fun _ k1 k2 => record_range k1 k2) end_ slice numThreads
               tid i1 i2 tr = (t', i', tr') ->
    launchLoop ty (launchRange identity func) end_ slice numThreads
               tid i1 i2 (Some (slots identity func numThreads tr))
    = (t', i', Some (slots identity func numThreads tr')).
Proof.
  funelim (launchLoop ty (fun _ k1 k2 => record_range k1 k2) end_ slice numThreads
                      tid i1 i2 tr); intros Hlen t' i' tr' Hrun.
  - simp launchLoop. rewrite Heq, Heq0. cbn.
    unfold async, schedule in *. subst tid.
    rewrite store_slots by lia.
    apply H; [|done]. unfold record_range. rewrite length_app. cbn. lia.
  - simp launchLoop. rewrite Heq, Heq0. cbn. congruence.
  - simp launchLoop. rewrite Heq. cbn. congruence.
Qed.

Lemma gather_slots_length tr :
  (length tr <= numThreads)%nat ->
  length (slots identity func numThreads tr) = numThreads.
Proof.
  intros. unfold slots. rewrite length_app, length_fmap, length_replicate. lia.
Qed.
End ReduceFacts.

Lemma resolveNumThreads_pos policy hint : (1 <= resolveNumThreads policy hint)%nat.
Proof.
  destruct policy; cbn; [lia|]. destruct (Nat.eqb_spec hint 0); lia.
Qed.

Lemma reduce_with_slots {Value} ty (identity : Value) func reduce numThreads
    start end_ :
  (1 <= numThreads)%nat ->
  reduce_with ty identity func reduce numThreads start end_
  = Some (gather identity reduce
            (slots identity func numThreads
                   (rangeFor_calls ty numThreads start end_))).
Proof.
  intros Hn. unfold reduce_with, rangeFor_calls, rangeFor_with.
  destruct (launchLoop_count ty end_ (sliceSize ty start end_ numThreads) numThreads
              0 start
              (Z.min (wrap ty (start + sliceSize ty start end_ numThreads)) end_) [])
    as (t' & i' & new & Hrun & Hlen & Hb); [lia|].
  rewrite Hrun.
  assert (replicate numThreads identity = slots identity func numThreads [])
    as -> by (unfold slots; cbn; by rewrite Nat.sub_0_r).
  erewrite launchLoop_reduce; [|done|exact Hrun].
  cbn [app] in *. destruct (Z.ltb_spec i' end_) as [Hlt|Hge]; [|done].
  unfold async, schedule, launchRange, record_range. cbn. subst t'.
  rewrite store_slots by lia. done.
Qed.

(** C9.  For every domain with [start <= end], [parallelReduce] returns the
    fold, from the accumulator [identity] and with [combineFn value
    accumulator] at each step, over exactly [numThreads] values in order: the
    partials [mapFn rangeBegin rangeEnd identity] of the partitions, in
    partition order, then one [identity] for every worker slot that received
    no partition. *)
Theorem parallelReduce_folds_partials_in_partition_order {Value : Type}
    (ty : IndexType) (identity : Value) (mapFn : Z -> Z -> Value -> Value)
    (combineFn : Value -> Value -> Value)
    (start end_ : Z) (policy : ExecutionPolicy) (numThreadsHint : nat) :
  start <= end_ ->
  let numThreads := resolveNumThreads policy numThreadsHint in
  let partitions := parallelRangeFor_calls ty start end_ policy numThreadsHint in
  let values :=
    ((fun r => mapFn r.1 r.2 identity) <$> partitions)
      ++ replicate (numThreads - length partitions) identity in
  length values = numThreads
  /\ parallelReduce ty identity mapFn combineFn start end_ policy numThreadsHint
     = Some (foldl (fun accumulator value => combineFn value accumulator)
                   identity values).
Proof.
  intros Hse numThreads partitions values.
  pose proof (resolveNumThreads_pos policy numThreadsHint) as Hn.
  assert (partitions = rangeFor_calls ty numThreads start end_) as Hp.
  { unfold partitions, parallelRangeFor_calls, parallelRangeFor.
    destruct (Z.gtb_spec start end_); [lia | done]. }
  pose proof (rangeFor_calls_length ty numThreads start end_ Hn) as Hlen.
  split.
  - unfold values. rewrite Hp, length_app, length_fmap, length_replicate. lia.
  - unfold parallelReduce. destruct (Z.gtb_spec start end_); [lia|].
    fold numThreads. rewrite reduce_with_slots by done.
    unfold values. rewrite Hp. done.
Qed.

Lemma parallelReduce_folds_partials_in_partition_order_witness :
  let numThreads := resolveNumThreads kParallel 4 in
  let partitions := parallelRangeFor_calls size_t 0 100 kParallel 4 in
  let values :=
    ((fun r => foldl Z.add 0 (seqZ r.1 (r.2 - r.1))) <$> partitions)
      ++ replicate (numThreads - length partitions) 0 in
  length values = numThreads
  /\ parallelReduce size_t 0
                    (fun k1 k2 partial => foldl Z.add partial (seqZ k1 (k2 - k1)))
                    Z.add 0 100 kParallel 4
     = Some (foldl (fun accumulator value => value + accumulator) 0 values).
Proof.
  apply (parallelReduce_folds_partials_in_partition_order size_t 0
           (fun k1 k2 partial => foldl Z.add partial (seqZ k1 (k2 - k1)))
           Z.add 0 100 kParallel 4).
  lia.
Defined.

Lemma rangeFor_calls_empty ty numThreads start :
  rangeFor_calls ty numThreads start start = [].
Proof.
  unfold rangeFor_calls, rangeFor_with. simp launchLoop.
  destruct (lt_dec (0 + 1) numThreads), (Z_lt_dec start start);
    try lia; cbn; by rewrite Z.ltb_irrefl.
Qed.

Lemma gather_replicate_identity {Value} (identity : Value) reduce n :
  reduce identity identity = identity ->
  gather identity reduce (replicate n identity) = identity.
Proof.
  intros Hid. unfold gather. induction n as [|n IH]; cbn; [done|].
  rewrite Hid. exact IH.
Qed.

(** C3 (amended).  For every identity value with
    [combineFn identity identity = identity], every [mapFn] and both policies,
    [parallelReduce] over the empty domain [start = end] returns exactly the
    identity value. *)
Theorem parallelReduce_empty_domain {Value : Type}
    (ty : IndexType) (identity : Value) (mapFn : Z -> Z -> Value -> Value)
    (combineFn : Value -> Value -> Value)
    (start : Z) (policy : ExecutionPolicy) (numThreadsHint : nat) :
  combineFn identity identity = identity ->
  parallelReduce ty identity mapFn combineFn start start policy numThreadsHint
  = Some identity.
Proof.
  intros Hid. unfold parallelReduce.
  destruct (Z.gtb_spec start start); [lia|].
  pose proof (resolveNumThreads_pos policy numThreadsHint) as Hn.
  rewrite reduce_with_slots by done.
  rewrite rangeFor_calls_empty.
  unfold slots. cbn [fmap list_fmap app length]. f_equal.
  by apply gather_replicate_identity.
Qed.

Lemma parallelReduce_empty_domain_witness :
  parallelReduce size_t 0
                 (fun k1 k2 partial => foldl Z.add partial (seqZ k1 (k2 - k1)))
                 Z.add 7 7 kParallel 0%nat = Some 0.
Proof.
  apply (parallelReduce_empty_domain size_t 0
           (fun k1 k2 partial => foldl Z.add partial (seqZ k1 (k2 - k1)))
           Z.add 7 kParallel 0%nat).
  reflexivity.
Defined.

(** C3 as stated fails for a combining function that does not leave the
    identity value fixed: the serial run over an empty domain combines the one
    untouched slot with the accumulator. *)
Lemma parallelReduce_empty_domain_counterexample :
  parallelReduce size_t 1 (fun _ _ partial => partial) Z.add 0 0 kSerial 0%nat
  = Some 2
  /\ parallelReduce size_t 1 (fun _ _ partial => partial) Z.add 0 0 kSerial 0%nat
     <> Some 1.
Proof. split; [vm_compute; reflexivity | vm_compute; discriminate]. Qed.

Example parallelReduce_scenario :
  parallelReduce size_t 0 (fun k1 k2 acc => foldl Z.add acc (seqZ k1 (k2 - k1)))
                 Z.add 0 100 kParallel 0%nat = Some 4950.
Proof. vm_compute. reflexivity. Qed.

(** ** The merge step *)

Section ArrayFacts.
Context {A : Type}.
Implicit Types l pre post : list A.

Lemma load_middle pre x post n :
  n = length pre -> load (pre ++ x :: post) n = Some x.
Proof. intros ->. apply list_lookup_middle. done. Qed.

Lemma store_middle pre x0 post n x :
  n = length pre -> store (pre ++ x0 :: post) n x = Some (pre ++ x :: post).
Proof.
  intros ->. unfold store. rewrite decide_True.
  - rewrite insert_app_r_alt, Nat.sub_diag by lia. done.
  - rewrite length_app. cbn. lia.
Qed.
End ArrayFacts.

Ltac list_eq := subst; repeat rewrite <- app_assoc; cbn; done.
Ltac len :=
  subst;
  repeat match goal with
         | H : context [length (_ ++ _)] |- _ => rewrite length_app in H
         | |- context [length (_ ++ _)] => rewrite length_app
         end;
  cbn [length] in *; lia.

Section CopyRest.
Context {A : Type}.

Lemma copy_rest_done (arr : list A) (a temp bound i tempi : nat) tmp :
  (bound <= i)%nat -> copy_rest arr a temp bound i tempi tmp = Some (i, tempi, tmp).
Proof. intros. simp copy_rest. destruct (lt_dec i bound); [lia | done]. Qed.

Lemma copy_rest_spec (arr : list A) (a temp bound : nat) (C : list A) :
  forall i tempi tmp pre post TP W TQ,
    arr = pre ++ C ++ post -> length pre = (a + i)%nat ->
    (i + length C)%nat = bound ->
    tmp = TP ++ W ++ TQ ->
    length TP = (temp + tempi)%nat -> length W = length C ->
    copy_rest arr a temp bound i tempi tmp
    = Some (bound, (tempi + length C)%nat, TP ++ C ++ TQ).
Proof.
  induction C as [|x C IH];
    intros i tempi tmp pre post TP W TQ Harr Hpre Hb Htmp HTP HW.
  - destruct W; [|done]. rewrite copy_rest_done by len.
    cbn in *. subst tmp. do 3 f_equal; lia.
  - destruct W as [|w W]; [done|]. simp copy_rest.
    destruct (lt_dec i bound); [|exfalso; len]. cbn.
    assert (emit arr a temp i tempi tmp = Some ((TP ++ [x]) ++ W ++ TQ)) as ->.
    { unfold emit. rewrite Harr, (load_middle pre x (C ++ post)) by lia. cbn.
      rewrite Htmp, (store_middle TP w (W ++ TQ)) by lia.
      by rewrite <- app_assoc. }
    cbn.
    rewrite (IH (i + 1)%nat (tempi + 1)%nat _ (pre ++ [x]) post (TP ++ [x]) W TQ);
      [|list_eq|len|len|done|len|len].
    rewrite <- !app_assoc. cbn. do 3 f_equal; lia.
Qed.
End CopyRest.

Section MergeScan.
Context {A : Type}.
Variable cmp : A -> A -> bool.

Lemma merge_lists_nil_l (r : list A) : merge_lists cmp [] r = r.
Proof. apply list_merge_nil_l. Qed.

Lemma merge_lists_nil_r (l : list A) : merge_lists cmp l [] = l.
Proof. apply list_merge_nil_r. Qed.

Lemma merge_lists_cons x y (l r : list A) :
  merge_lists cmp (x :: l) (y :: r)
  = if cmp x y then x :: merge_lists cmp l (y :: r)
    else y :: merge_lists cmp (x :: l) r.
Proof.
  unfold merge_lists. rewrite list_merge_cons.
  destruct (cmp x y); cbn; done.
Qed.

Lemma merge_lists_length (l r : list A) :
  length (merge_lists cmp l r) = (length l + length r)%nat.
Proof.
  revert r. induction l as [|x l IHl]; intros r.
  - by rewrite merge_lists_nil_l.
  - induction r as [|y r IHr].
    + rewrite merge_lists_nil_r. cbn. lia.
    + rewrite merge_lists_cons. destruct (cmp x y); cbn.
      * rewrite IHl. cbn. lia.
      * rewrite IHr. cbn. lia.
Qed.

Lemma scan_from_spec (arr : list A) (a size temp : nat) (P L R Q TP TQ : list A) :
  arr = P ++ (L ++ R) ++ Q -> length P = a ->
  length L = (size / 2)%nat -> (length L + length R)%nat = size ->
  length TP = temp ->
  forall L2 R2 L1 R1 O W i1 i2 tempi tmp,
    L = L1 ++ L2 -> R = R1 ++ R2 ->
    i1 = length L1 -> i2 = (size / 2 + length R1)%nat -> tempi = length O ->
    tmp = TP ++ O ++ W ++ TQ ->
    length W = (length L2 + length R2)%nat ->
    scan_from cmp arr a size temp i1 i2 tempi tmp
    = Some (size, (tempi + length L2 + length R2)%nat,
            TP ++ O ++ merge_lists cmp L2 R2 ++ TQ).
Proof.
  intros Harr HP HL HLR HTP.
  induction L2 as [|x L2 IHL].
  - intros R2 L1 R1 O W i1 i2 tempi tmp HL1 HR1 Hi1 Hi2 Hti Htmp HW.
    rewrite app_nil_r in HL1. subst L1.
    unfold scan_from. simp merge_both.
    destruct (lt_dec i1 (size / 2)); [lia|]. cbn.
    rewrite copy_rest_done by lia. cbn.
    rewrite (copy_rest_spec arr a temp size R2 _ _ _ (P ++ L ++ R1) Q
               (TP ++ O) W TQ); [|list_eq|len|len|list_eq|len|len].
    cbn. rewrite merge_lists_nil_l, <- !app_assoc. do 3 f_equal; lia.
  - induction R2 as [|y R2 IHR].
    + intros L1 R1 O W i1 i2 tempi tmp HL1 HR1 Hi1 Hi2 Hti Htmp HW.
      rewrite app_nil_r in HR1. subst R1.
      unfold scan_from. simp merge_both.
      destruct (lt_dec i1 (size / 2)) as [Hlt|]; [|exfalso; len].
      destruct (lt_dec i2 size); [lia|]. cbn.
      rewrite (copy_rest_spec arr a temp (size / 2) (x :: L2) _ _ _ (P ++ L1)
                 (R ++ Q) (TP ++ O) W TQ); [|list_eq|len|len|list_eq|len|len].
      cbn. rewrite copy_rest_done by lia. cbn.
      rewrite merge_lists_nil_r, <- !app_assoc. cbn.
      do 3 f_equal; lia.
    + intros L1 R1 O W i1 i2 tempi tmp HL1 HR1 Hi1 Hi2 Hti Htmp HW.
      destruct W as [|w W]; [done|].
      unfold scan_from. simp merge_both.
      destruct (lt_dec i1 (size / 2)) as [Hlt|]; [|exfalso; len].
      destruct (lt_dec i2 size) as [Hlt2|]; [|exfalso; len].
      cbn.
      assert (load arr (a + i1) = Some x) as Hx.
      { rewrite Harr, HL1. rewrite <- !app_assoc, app_assoc.
        apply load_middle. len. }
      assert (load arr (a + i2) = Some y) as Hy.
      { rewrite Harr, HR1. rewrite <- !app_assoc, !app_assoc.
        rewrite <- (app_assoc _ (y :: R2) Q). apply load_middle. len. }
      assert (forall v, store tmp (temp + tempi) v
                        = Some (TP ++ (O ++ [v]) ++ W ++ TQ)) as Hst.
      { intros v. rewrite Htmp, app_assoc.
        rewrite (store_middle (TP ++ O) w (W ++ TQ)) by len. f_equal. list_eq. }
      unfold compare_at. rewrite Hx, Hy. cbn.
      rewrite merge_lists_cons.
      destruct (cmp x y) eqn:Hcmp; cbn.
      * unfold emit. rewrite Hx. cbn. rewrite Hst. cbn.
        specialize (IHL (y :: R2) (L1 ++ [x]) R1 (O ++ [x]) W (i1 + 1)%nat i2
                        (tempi + 1)%nat (TP ++ (O ++ [x]) ++ W ++ TQ)).
        unfold scan_from in IHL.
        rewrite IHL; [|list_eq|done|len|len|len|done|len].
        rewrite <- !app_assoc. cbn. do 3 f_equal; lia.
      * unfold emit. rewrite Hy. cbn. rewrite Hst. cbn.
        specialize (IHR L1 (R1 ++ [y]) (O ++ [y]) W i1 (i2 + 1)%nat
                        (tempi + 1)%nat (TP ++ (O ++ [y]) ++ W ++ TQ)).
        unfold scan_from in IHR.
        rewrite IHR; [|done|list_eq|len|len|len|done|len].
        rewrite <- !app_assoc. cbn. do 3 f_equal; lia.
Qed.
End MergeScan.

Section MergeSpec.
Context {A : Type}.
Variable defaultPolicy : ExecutionPolicy.
Variable cmp : A -> A -> bool.

Lemma copy_back_prefix (a temp : nat) (tmp P X Q TP M TQ : list A) (k : nat) :
  length P = a -> tmp = TP ++ M ++ TQ -> length TP = temp ->
  length M = length X -> (k <= length X)%nat ->
  foldl (fun s i => copy_back a temp tmp i s) (Some (P ++ X ++ Q))
        (seqZ 0 (Z.of_nat k))
  = Some (P ++ take k M ++ drop k X ++ Q).
Proof.
  intros HP Htmp HTP HM. induction k as [|k IH]; intros Hk.
  - cbn. by rewrite drop_0.
  - rewrite seqZ_S, foldl_snoc, IH by lia. cbn.
    rewrite Z.add_0_l, Nat2Z.id.
    destruct (lookup_lt_is_Some_2 M k ltac:(lia)) as [m Hm].
    destruct (lookup_lt_is_Some_2 X k ltac:(lia)) as [x Hx].
    assert (load tmp (temp + k) = Some m) as ->.
    { unfold load. rewrite Htmp, lookup_app_r by lia.
      rewrite lookup_app_l by (apply lookup_lt_Some in Hm; lia).
      rewrite <- Hm. f_equal. lia. }
    cbn. rewrite (drop_S X x k Hx), (take_S_r M k m Hm).
    rewrite app_assoc.
    rewrite (store_middle (P ++ take k M) x (drop (S k) X ++ Q)).
    + f_equal. list_eq.
    + rewrite length_app, length_take. apply lookup_lt_Some in Hm. lia.
Qed.

Lemma copy_back_spec policy (a size temp : nat) (tmp P X Q TP M TQ : list A) :
  length P = a -> length X = size -> tmp = TP ++ M ++ TQ -> length TP = temp ->
  length M = size ->
  parallelFor kZeroSize (Z.of_nat size) (copy_back a temp tmp) policy
              (Some (P ++ X ++ Q))
  = Some (P ++ M ++ Q).
Proof.
  intros HP HX Htmp HTP HM. rewrite parallelFor_foldl. unfold kZeroSize.
  rewrite Z.sub_0_r.
  rewrite (copy_back_prefix a temp tmp P X Q TP M TQ size) by (done || lia).
  rewrite take_ge, drop_ge by lia. done.
Qed.

Lemma merge_spec (a size temp : nat) (st : SortState A) (P L R Q TP TX TQ : list A) :
  main st = P ++ (L ++ R) ++ Q -> length P = a ->
  length L = (size / 2)%nat -> (length L + length R)%nat = size ->
  scratch st = TP ++ TX ++ TQ -> length TP = temp -> length TX = size ->
  merge defaultPolicy cmp a size temp st
  = Some (mkSortState (P ++ merge_lists cmp L R ++ Q)
                      (TP ++ merge_lists cmp L R ++ TQ)
                      (events st ++ [MergeCall a size temp])).
Proof.
  intros Hmain HP HL HLR Hscr HTP HTX.
  pose proof (scan_from_spec cmp (main st) a size temp P L R Q TP TQ
                Hmain HP HL HLR HTP L R [] [] [] TX 0%nat (size / 2)%nat 0%nat
                (scratch st) eq_refl eq_refl eq_refl ltac:(cbn; lia) eq_refl
                Hscr ltac:(lia)) as Hscan.
  unfold merge, scan_from in *.
  destruct (merge_both _ _ _ _ _ _ _ _ _) as [[[[i1 i2] tempi] tmp]|];
    [|done]. cbn in Hscan |- *.
  destruct (copy_rest _ _ _ _ i1 _ _) as [[[i1' tempi'] tmp']|]; [|done].
  cbn in Hscan |- *.
  destruct (copy_rest _ _ _ _ i2 _ _) as [[[i2' tempi''] tmp'']|]; [|done].
  cbn in Hscan |- *. injection Hscan as -> -> ->.
  rewrite Hmain.
  rewrite (copy_back_spec defaultPolicy a size temp _ P (L ++ R) Q TP
             (merge_lists cmp L R) TQ);
    [done|done|len|done|done|rewrite merge_lists_length; lia].
Qed.
End MergeSpec.

(** ** Comparators and sortedness *)

Section OrderFacts.
Context {A : Type}.
Variable cmp : A -> A -> bool.
Hypothesis Hswo : StrictWeakOrder cmp.

Lemma swo_asym x y : cmp x y = true -> cmp y x = false.
Proof.
  intros Hxy. destruct (cmp y x) eqn:Hyx; [|done].
  pose proof (swo_trans cmp Hswo x y x Hxy Hyx) as Hxx.
  rewrite (swo_irrefl cmp Hswo) in Hxx. done.
Qed.

Lemma swo_neg_trans x y z :
  cmp x z = true -> cmp x y = true \/ cmp y z = true.
Proof.
  intros Hxz.
  destruct (cmp x y) eqn:Hxy; [by left|].
  destruct (cmp y z) eqn:Hyz; [by right|]. exfalso.
  destruct (cmp y x) eqn:Hyx.
  { pose proof (swo_trans cmp Hswo y x z Hyx Hxz). congruence. }
  destruct (cmp z y) eqn:Hzy.
  { pose proof (swo_trans cmp Hswo x z y Hxz Hzy). congruence. }
  destruct (swo_tied_trans cmp Hswo x y z Hxy Hyx Hyz Hzy). congruence.
Qed.

Lemma not_after_trans x y z :
  not_after cmp x y -> not_after cmp y z -> not_after cmp x z.
Proof.
  unfold not_after. intros Hyx Hzy.
  destruct (cmp z x) eqn:Hzx; [|done].
  destruct (swo_neg_trans z y x Hzx); congruence.
Qed.

Lemma non_decreasing_StronglySorted l :
  non_decreasing cmp l <-> StronglySorted (not_after cmp) l.
Proof.
  split.
  - induction l as [|x l IH]; intros Hnd; constructor.
    + apply IH. intros i j a b Hij Hi Hj. by apply (Hnd (S i) (S j) a b); [lia|..].
    + apply Forall_lookup. intros j y Hj.
      by apply (Hnd 0%nat (S j) x y); [lia|..].
  - induction 1 as [|x l Hl IH Hx]; intros i j a b Hij Hi Hj; [done|].
    destruct j as [|j]; [lia|]. cbn in Hj.
    destruct i as [|i]; cbn in Hi.
    + injection Hi as ->. rewrite Forall_lookup in Hx. by apply (Hx j).
    + apply (IH i j); [lia|done..].
Qed.

Lemma merge_lists_Permutation (l r : list A) : merge_lists cmp l r ≡ₚ l ++ r.
Proof. apply merge_Permutation. Qed.

Lemma merge_lists_sorted (l r : list A) :
  StronglySorted (not_after cmp) l -> StronglySorted (not_after cmp) r ->
  StronglySorted (not_after cmp) (merge_lists cmp l r).
Proof.
  intros Hl. revert r. induction Hl as [|x l Hl IHl Hx]; intros r Hr.
  - unfold merge_lists. by rewrite list_merge_nil_l.
  - induction Hr as [|y r Hr IHr Hy].
    + unfold merge_lists. rewrite list_merge_nil_r. by constructor.
    + rewrite merge_lists_cons. destruct (cmp x y) eqn:Hxy.
      * constructor; [apply IHl; by constructor|].
        rewrite merge_lists_Permutation. apply Forall_app. split; [done|].
        assert (not_after cmp x y) as Hxy' by (by apply swo_asym).
        constructor; [done|].
        eapply Forall_impl; [exact Hy|]. intros z Hz.
        by eapply not_after_trans.
      * constructor; [done|].
        rewrite merge_lists_Permutation. apply Forall_app. split; [|done].
        constructor; [done|].
        eapply Forall_impl; [exact Hx|]. intros z Hz.
        by eapply (not_after_trans y x z).
Qed.

Lemma below_cons v y l :
  below cmp v (y :: l) = if cmp y v then S (below cmp v l) else below cmp v l.
Proof.
  unfold below. rewrite filter_cons.
  destruct (cmp y v).
  - by rewrite decide_True.
  - by rewrite decide_False by (by intros ?).
Qed.

Lemma below_none v l :
  Forall (fun e => cmp e v = false) l -> below cmp v l = 0%nat.
Proof.
  induction 1 as [|y l Hy _ IH]; [done|]. by rewrite below_cons, Hy.
Qed.

Lemma below_sorted v l :
  StronglySorted (not_after cmp) l ->
  forall i x, l !! i = Some x -> (cmp x v = true <-> (i < below cmp v l)%nat).
Proof.
  induction 1 as [|y l Hl IH Hy]; intros i x Hi; [done|].
  rewrite below_cons. destruct (cmp y v) eqn:Hyv.
  - destruct i as [|i]; cbn in Hi.
    + injection Hi as <-. split; [lia|done].
    + rewrite (IH i x Hi). lia.
  - assert (Forall (fun e => cmp e v = false) (y :: l)) as Hall.
    { constructor; [done|]. eapply Forall_impl; [exact Hy|].
      intros z Hz. destruct (cmp z v) eqn:Hzv; [|done].
      destruct (swo_neg_trans z y v Hzv); unfold not_after in *; congruence. }
    rewrite (below_none v l) by (by inversion Hall).
    rewrite Forall_lookup in Hall. rewrite (Hall i x Hi). split; [done|lia].
Qed.

Lemma below_Permutation v l1 l2 : l1 ≡ₚ l2 -> below cmp v l1 = below cmp v l2.
Proof. intros Hp. unfold below. by rewrite Hp. Qed.

Lemma sorted_permutations_tied l1 l2 :
  StronglySorted (not_after cmp) l1 -> StronglySorted (not_after cmp) l2 -> l1 ≡ₚ l2 ->
  Forall2 (tied cmp) l1 l2.
Proof.
  intros Hs1 Hs2 Hp. apply Forall2_same_length_lookup.
  split; [by apply Permutation_length|].
  intros i x y Hx Hy.
  assert (forall a b l l', StronglySorted (not_after cmp) l ->
            StronglySorted (not_after cmp) l' -> l ≡ₚ l' ->
            l !! i = Some a -> l' !! i = Some b -> cmp a b = false) as Hhalf.
  { intros a b l l' Hl Hl' Hll Ha Hb.
    destruct (cmp a b) eqn:Hab; [|done].
    apply (below_sorted b l Hl i a Ha) in Hab.
    rewrite (below_Permutation b l l' Hll) in Hab.
    apply (below_sorted b l' Hl' i b Hb) in Hab.
    by rewrite (swo_irrefl cmp Hswo) in Hab. }
  split.
  - by apply (Hhalf x y l1 l2).
  - by apply (Hhalf y x l2 l1).
Qed.
End OrderFacts.

(** ** The recursive sort *)

Section SortSpec.
Context {A : Type}.
Variable std_sort : (A -> A -> bool) -> list A -> list A.
Variable defaultPolicy : ExecutionPolicy.
Variable cmp : A -> A -> bool.
Hypothesis Hswo : StrictWeakOrder cmp.
Hypothesis Hstd : std_sort_contract std_sort.
Local Open Scope nat_scope.

Lemma half_le (n : nat) : n / 2 <= n.
Proof. apply Nat.Div0.div_le_upper_bound. lia. Qed.

Lemma take_drop_app h (X Q : list A) : take h X ++ drop h X ++ Q = X ++ Q.
Proof. by rewrite app_assoc, take_drop. Qed.

Lemma std_sort_range_spec a size st P X Q :
  main st = P ++ X ++ Q -> length P = a -> length X = size ->
  std_sort_range std_sort cmp a size st
  = Some (mkSortState (P ++ std_sort cmp X ++ Q) (scratch st)
                      (events st ++ [StdSortCall a size])).
Proof.
  intros Hmain HP HX. unfold std_sort_range. rewrite Hmain.
  rewrite decide_True by len.
  rewrite (take_app_length' P) by done.
  rewrite (drop_app_length' P) by done.
  rewrite (take_app_length' X) by done.
  replace (drop (a + size) (P ++ X ++ Q)) with Q; [done|].
  rewrite app_assoc, (drop_app_length' (P ++ X)) by len. done.
Qed.

Lemma parallelMergeSort_spec numThreads :
  forall a size temp st P X Q TP TX TQ,
    1 <= numThreads ->
    main st = P ++ X ++ Q -> length P = a -> length X = size ->
    scratch st = TP ++ TX ++ TQ -> length TP = temp -> length TX = size ->
    exists X' TX' ev,
      parallelMergeSort std_sort defaultPolicy cmp a size temp numThreads st
      = Some (mkSortState (P ++ X' ++ Q) (TP ++ TX' ++ TQ) (events st ++ ev))
      /\ X' ≡ₚ X /\ StronglySorted (not_after cmp) X' /\ length TX' = size
      /\ dispatch_events a size temp numThreads ev.
Proof.
  induction numThreads as [numThreads IH] using lt_wf_ind.
  intros a size temp st P X Q TP TX TQ Hn Hmain HP HX Hscr HTP HTX.
  simp parallelMergeSort.
  destruct (Nat.eq_dec numThreads 1) as [->|Hne]; cbn.
  - (* one worker: the sequential sort *)
    destruct (Hstd cmp X Hswo) as [Hperm Hsorted].
    exists (std_sort cmp X), TX, [StdSortCall a size].
    rewrite (std_sort_range_spec a size st P X Q) by done.
    rewrite Hscr. split_and!; try done.
    by apply non_decreasing_StronglySorted.
  - destruct (lt_dec 1 numThreads) as [Hgt|]; [|lia]. cbn.
    pose proof (half_le size) as Hh.
    assert (1 <= numThreads / 2) as Hl by (apply Nat.div_le_lower_bound; lia).
    assert (numThreads / 2 < numThreads) as Hl' by (apply Nat.div_lt; lia).
    (* the left task, on the first [size / 2] elements *)
    destruct (IH (numThreads / 2) Hl' a (size / 2) temp
                (log_event (LaunchRangeCall a (size / 2) temp (numThreads / 2)) st)
                P (take (size / 2) X) (drop (size / 2) X ++ Q)
                TP (take (size / 2) TX) (drop (size / 2) TX ++ TQ))
      as (XL & TL & evL & -> & HpL & HsL & HlenL & _); cbn;
      [done|by rewrite take_drop_app|done|rewrite length_take; lia
      |by rewrite take_drop_app|done|rewrite length_take; lia|].
    assert (length XL = size / 2) as HlenXL.
    { rewrite (Permutation_length HpL), length_take. lia. }
    (* the right task, on the remaining elements *)
    match goal with
    | |- context [parallelMergeSort _ _ _ (a + size / 2) _ _ _ ?s] =>
        destruct (IH (numThreads - numThreads / 2) ltac:(lia) (a + size / 2)
                    (size - size / 2) (temp + size / 2) s
                    (P ++ XL) (drop (size / 2) X) Q
                    (TP ++ TL) (drop (size / 2) TX) TQ)
          as (XR & TR & evR & -> & HpR & HsR & HlenR & _); cbn;
          [lia|list_eq|len|rewrite length_drop; lia|list_eq|len
          |rewrite length_drop; lia|]
    end.
    assert (length XR = size - size / 2) as HlenXR.
    { rewrite (Permutation_length HpR), length_drop. lia. }
    (* the merge of the two sorted halves *)
    rewrite (merge_spec defaultPolicy cmp a size temp _ P XL XR Q TP (TL ++ TR) TQ);
      cbn; [|list_eq|done|done|lia|list_eq|done|len].
    exists (merge_lists cmp XL XR), (merge_lists cmp XL XR),
      ([LaunchRangeCall a (size / 2) temp (numThreads / 2)] ++ evL
         ++ [LaunchRangeCall (a + size / 2) (size - size / 2) (temp + size / 2)
               (numThreads - numThreads / 2)]
         ++ evR ++ [MergeCall a size temp]).
    split_and!.
    + do 2 f_equal. list_eq.
    + rewrite merge_lists_Permutation, HpL, HpR. by rewrite take_drop.
    + by apply merge_lists_sorted.
    + rewrite merge_lists_length. lia.
    + unfold dispatch_events. rewrite decide_False by done. by exists evL, evR.
Qed.
End SortSpec.

(** ** A runnable [std::sort] *)

Section InsertionSortFacts.
Context {A : Type}.
Variable cmp : A -> A -> bool.
Hypothesis Hswo : StrictWeakOrder cmp.

Lemma insert_sorted_Permutation x (l : list A) : insert_sorted cmp x l ≡ₚ x :: l.
Proof.
  induction l as [|y l IH]; cbn; [done|].
  destruct (cmp x y); [done|]. rewrite IH. apply Permutation_swap.
Qed.

Lemma insert_sorted_sorted x (l : list A) :
  StronglySorted (not_after cmp) l ->
  StronglySorted (not_after cmp) (insert_sorted cmp x l).
Proof.
  induction 1 as [|y l Hl IH Hy]; cbn.
  - repeat constructor.
  - destruct (cmp x y) eqn:Hxy.
    + assert (not_after cmp x y) as Hxy' by (by apply swo_asym).
      constructor; [by constructor|]. constructor; [done|].
      eapply Forall_impl; [exact Hy|]. intros z Hz.
      by eapply not_after_trans.
    + constructor; [done|]. rewrite insert_sorted_Permutation.
      by constructor.
Qed.

Lemma insertion_sort_from (l acc : list A) :
  StronglySorted (not_after cmp) acc ->
  foldl (fun acc x => insert_sorted cmp x acc) acc l ≡ₚ acc ++ l
  /\ StronglySorted (not_after cmp)
       (foldl (fun acc x => insert_sorted cmp x acc) acc l).
Proof.
  revert acc. induction l as [|x l IH]; intros acc Hacc; cbn.
  - by rewrite app_nil_r.
  - destruct (IH (insert_sorted cmp x acc)) as [Hp Hs];
      [by apply insert_sorted_sorted|].
    split; [|done]. rewrite Hp, insert_sorted_Permutation. cbn.
    apply Permutation_middle.
Qed.
End InsertionSortFacts.

Lemma insertion_sort_contract {A : Type} : std_sort_contract (@insertion_sort A).
Proof.
  intros cmp l Hswo.
  destruct (insertion_sort_from cmp Hswo l []) as [Hp Hs]; [constructor|].
  split; [done|]. by apply non_decreasing_StronglySorted.
Qed.

Lemma Z_ltb_StrictWeakOrder : StrictWeakOrder Z.ltb.
Proof. split; intros; lia. Qed.

Lemma key_less_StrictWeakOrder : StrictWeakOrder key_less.
Proof. unfold key_less. split; intros; lia. Qed.

(** ** The sort entry point *)

Section SortTheorems.
Context {A : Type}.
Variable std_sort : (A -> A -> bool) -> list A -> list A.
Variable defaultPolicy : ExecutionPolicy.
Variable value_init : A.
Variable cmp : A -> A -> bool.

Lemma sub_array_split begin end_ (arr : list A) :
  (begin <= end_)%nat -> (end_ <= length arr)%nat ->
  arr = take begin arr ++ sub_array arr begin (end_ - begin) ++ drop end_ arr
  /\ length (take begin arr) = begin
  /\ length (sub_array arr begin (end_ - begin)) = (end_ - begin)%nat.
Proof.
  intros Hbe Hel. unfold sub_array. split_and!.
  - rewrite <- (take_drop begin arr) at 1. f_equal.
    rewrite <- (take_drop (end_ - begin) (drop begin arr)) at 1. f_equal.
    rewrite drop_drop. f_equal. lia.
  - rewrite length_take. lia.
  - rewrite length_take, length_drop. lia.
Qed.

Lemma parallelSort_spec begin end_ policy numThreadsHint (arr : list A) :
  StrictWeakOrder cmp -> std_sort_contract std_sort ->
  (begin <= end_)%nat -> (end_ <= length arr)%nat ->
  exists X',
    parallelSort std_sort defaultPolicy value_init cmp begin end_ policy
                 numThreadsHint arr
    = Some (take begin arr ++ X' ++ drop end_ arr)
    /\ X' ≡ₚ sub_array arr begin (end_ - begin)
    /\ StronglySorted (not_after cmp) X'.
Proof.
  intros Hswo Hstd Hbe Hel. unfold parallelSort.
  destruct (Nat.ltb_spec end_ begin) as [|_]; [lia|].
  destruct (sub_array_split begin end_ arr Hbe Hel) as (Harr & HlenP & HlenX).
  destruct (parallelMergeSort_spec std_sort defaultPolicy cmp Hswo Hstd
              (resolveNumThreads policy numThreadsHint)
              begin (end_ - begin)%nat 0%nat
              (mkSortState arr (replicate (end_ - begin) value_init) [])
              (take begin arr) (sub_array arr begin (end_ - begin))
              (drop end_ arr) [] (replicate (end_ - begin) value_init) [])
    as (X' & TX' & ev & -> & Hp & Hs & _ & _); cbn;
    [apply resolveNumThreads_pos|done|done|done|by rewrite app_nil_r|done
    |by rewrite length_replicate|].
  by exists X'.
Qed.

Lemma sorted_output_frame begin end_ (arr X' : list A) :
  (begin <= end_)%nat -> (end_ <= length arr)%nat ->
  length X' = (end_ - begin)%nat ->
  let out := take begin arr ++ X' ++ drop end_ arr in
  take begin out = take begin arr /\ drop end_ out = drop end_ arr
  /\ sub_array out begin (end_ - begin) = X'.
Proof.
  intros Hbe Hel HX' out. unfold out, sub_array.
  assert (length (take begin arr) = begin) as HP by (rewrite length_take; lia).
  split_and!.
  - by rewrite take_app_length'.
  - rewrite app_assoc, drop_app_length'; [done|]. rewrite length_app. lia.
  - rewrite drop_app_length' by done. by rewrite take_app_length'.
Qed.
End SortTheorems.

(** C1.  For every array, every strict weak order and both policies (with any
    worker hint), [parallelSort] on a range [begin, end) inside the array
    returns, and leaves in the range a permutation of its original contents
    in which no element is strictly less than an earlier one; the elements
    outside the range are untouched.  [std::sort] is assumed to meet the
    contract of the C++ standard. *)
Theorem parallelSort_sorts_range {A : Type}
    (std_sort : (A -> A -> bool) -> list A -> list A)
    (defaultPolicy : ExecutionPolicy) (value_init : A)
    (compareFn : A -> A -> bool) (begin end_ : nat)
    (policy : ExecutionPolicy) (numThreadsHint : nat) (arr : list A) :
  StrictWeakOrder compareFn -> std_sort_contract std_sort ->
  (begin <= end_)%nat -> (end_ <= length arr)%nat ->
  exists out,
    parallelSort std_sort defaultPolicy value_init compareFn begin end_ policy
                 numThreadsHint arr = Some out
    /\ sub_array out begin (end_ - begin) ≡ₚ sub_array arr begin (end_ - begin)
    /\ non_decreasing compareFn (sub_array out begin (end_ - begin))
    /\ take begin out = take begin arr /\ drop end_ out = drop end_ arr.
Proof.
  intros Hswo Hstd Hbe Hel.
  destruct (parallelSort_spec std_sort defaultPolicy value_init compareFn begin end_
              policy numThreadsHint arr Hswo Hstd Hbe Hel) as (X' & Hrun & Hp & Hs).
  assert (length X' = (end_ - begin)%nat) as HlenX.
  { rewrite (Permutation_length Hp).
    by destruct (sub_array_split begin end_ arr Hbe Hel) as (_ & _ & ?). }
  destruct (sorted_output_frame begin end_ arr X' Hbe Hel HlenX) as (Ht & Hd & Hsub).
  eexists. split; [exact Hrun|]. rewrite Hsub. split_and!; try done.
  by apply non_decreasing_StronglySorted.
Qed.

Lemma parallelSort_sorts_range_witness :
  exists out,
    parallelSort (@insertion_sort Z) kParallel 0 Z.ltb 1 6 kParallel 4
                 [9; 5; 3; 1; 4; 2; 0] = Some out
    /\ sub_array out 1 (6 - 1) ≡ₚ sub_array [9; 5; 3; 1; 4; 2; 0] 1 (6 - 1)
    /\ non_decreasing Z.ltb (sub_array out 1 (6 - 1))
    /\ take 1 out = take 1 [9; 5; 3; 1; 4; 2; 0]
    /\ drop 6 out = drop 6 [9; 5; 3; 1; 4; 2; 0].
Proof.
  apply (parallelSort_sorts_range (@insertion_sort Z) kParallel 0 Z.ltb 1 6
           kParallel 4 [9; 5; 3; 1; 4; 2; 0]).
  - exact Z_ltb_StrictWeakOrder.
  - exact insertion_sort_contract.
  - lia.
  - cbn. lia.
Defined.

(** ** Serial against parallel *)

Section PolicyAgreement.
Context {A : Type}.
Variable cmp : A -> A -> bool.
Hypothesis Hswo : StrictWeakOrder cmp.

Lemma tied_refl_all (l : list A) : Forall2 (tied cmp) l l.
Proof.
  induction l as [|x l IH]; constructor; [|done].
  split; apply (swo_irrefl cmp Hswo).
Qed.

Lemma tied_distinct_eq (l1 l2 : list A) :
  Forall2 (tied cmp) l1 l2 ->
  (forall x y, x ∈ l1 -> y ∈ l2 -> tied cmp x y -> x = y) ->
  l1 = l2.
Proof.
  induction 1 as [|x y l1 l2 Hxy _ IH]; intros Heq; [done|].
  f_equal.
  - apply Heq; [apply list_elem_of_here..|done].
  - apply IH. intros a b Ha Hb. apply Heq; by apply list_elem_of_further.
Qed.
End PolicyAgreement.

(** C5 (amended).  For every array, every strict weak order and every worker
    hint, the serial and the parallel run both return, and their outputs hold
    at every position elements that are tied under the comparator; the outputs
    are identical when no two distinct elements of the array are tied.  Where
    distinct elements tie, their placement is not determined. *)
Theorem parallelSort_policies_agree_up_to_ties {A : Type}
    (std_sort : (A -> A -> bool) -> list A -> list A)
    (defaultPolicy : ExecutionPolicy) (value_init : A)
    (compareFn : A -> A -> bool) (begin end_ : nat)
    (numThreadsHint : nat) (arr : list A) :
  StrictWeakOrder compareFn -> std_sort_contract std_sort ->
  (begin <= end_)%nat -> (end_ <= length arr)%nat ->
  exists serial parallel,
    parallelSort std_sort defaultPolicy value_init compareFn begin end_ kSerial
                 numThreadsHint arr = Some serial
    /\ parallelSort std_sort defaultPolicy value_init compareFn begin end_ kParallel
                    numThreadsHint arr = Some parallel
    /\ Forall2 (tied compareFn) serial parallel
    /\ ((forall x y, x ∈ arr -> y ∈ arr -> tied compareFn x y -> x = y) ->
        serial = parallel).
Proof.
  intros Hswo Hstd Hbe Hel.
  destruct (parallelSort_spec std_sort defaultPolicy value_init compareFn begin end_
              kSerial numThreadsHint arr Hswo Hstd Hbe Hel) as (X1 & Hrun1 & Hp1 & Hs1).
  destruct (parallelSort_spec std_sort defaultPolicy value_init compareFn begin end_
              kParallel numThreadsHint arr Hswo Hstd Hbe Hel)
    as (X2 & Hrun2 & Hp2 & Hs2).
  destruct (sub_array_split begin end_ arr Hbe Hel) as (Harr & _ & _).
  assert (Forall2 (tied compareFn) (take begin arr ++ X1 ++ drop end_ arr)
                  (take begin arr ++ X2 ++ drop end_ arr)) as Htied.
  { apply Forall2_app; [by apply tied_refl_all|].
    apply Forall2_app; [|by apply tied_refl_all].
    apply sorted_permutations_tied; [done..|]. by rewrite Hp1, Hp2. }
  eexists _, _. split_and!; [exact Hrun1|exact Hrun2|exact Htied|].
  intros Hdistinct. apply (tied_distinct_eq compareFn _ _ Htied).
  intros x y Hx Hy. apply Hdistinct.
  - rewrite Harr, <- Hp1. done.
  - rewrite Harr, <- Hp2. done.
Qed.

Lemma parallelSort_policies_agree_up_to_ties_witness :
  exists serial parallel,
    parallelSort (@insertion_sort (Z * Z)) kParallel (0, 0) key_less 0 3 kSerial 2
                 [(3, 30); (1, 10); (2, 20)] = Some serial
    /\ parallelSort (@insertion_sort (Z * Z)) kParallel (0, 0) key_less 0 3 kParallel 2
                    [(3, 30); (1, 10); (2, 20)] = Some parallel
    /\ Forall2 (tied key_less) serial parallel
    /\ ((forall x y, x ∈ [(3, 30); (1, 10); (2, 20)] ->
                     y ∈ [(3, 30); (1, 10); (2, 20)] -> tied key_less x y -> x = y) ->
        serial = parallel).
Proof.
  apply (parallelSort_policies_agree_up_to_ties (@insertion_sort (Z * Z)) kParallel
           (0, 0) key_less 0 3 2 [(3, 30); (1, 10); (2, 20)]).
  - exact key_less_StrictWeakOrder.
  - exact insertion_sort_contract.
  - lia.
  - cbn. lia.
Defined.

(** C5 as stated fails: two records with equal keys come out in their
    original order from the serial run and swapped from the parallel run. *)
Lemma parallelSort_policies_differ_on_ties :
  parallelSort (@insertion_sort (Z * Z)) kParallel (0, 0) key_less 0 2 kSerial 2
               [(1, 10); (1, 20)] = Some [(1, 10); (1, 20)]
  /\ parallelSort (@insertion_sort (Z * Z)) kParallel (0, 0) key_less 0 2 kParallel 2
                  [(1, 10); (1, 20)] = Some [(1, 20); (1, 10)]
  /\ parallelSort (@insertion_sort (Z * Z)) kParallel (0, 0) key_less 0 2 kSerial 2
                  [(1, 10); (1, 20)]
     <> parallelSort (@insertion_sort (Z * Z)) kParallel (0, 0) key_less 0 2
                     kParallel 2 [(1, 10); (1, 20)].
Proof. vm_compute. split_and!; [reflexivity | reflexivity | discriminate]. Qed.

(** ** Ties in the merge *)

Section MergeTies.
Context {A : Type}.
Variable cmp : A -> A -> bool.
Hypothesis Hswo : StrictWeakOrder cmp.

Lemma tied_below_none v x (r : list A) :
  tied cmp v x -> Forall (fun e => cmp x e = true) r ->
  filter (tied cmp v) r = [].
Proof.
  intros [Hvx Hxv]. induction 1 as [|e r He _ IH]; [done|].
  rewrite filter_cons_False; [done|]. intros [Hve _].
  destruct (swo_neg_trans cmp Hswo x v e He); congruence.
Qed.

Lemma merge_lists_ties (l r : list A) :
  StronglySorted (not_after cmp) r ->
  forall v, filter (tied cmp v) (merge_lists cmp l r)
            = filter (tied cmp v) r ++ filter (tied cmp v) l.
Proof.
  revert r. induction l as [|x l IHl]; intros r Hr v.
  - by rewrite merge_lists_nil_l, app_nil_r.
  - induction Hr as [|y r Hr IHr Hy].
    + by rewrite merge_lists_nil_r.
    + rewrite merge_lists_cons. destruct (cmp x y) eqn:Hxy.
      * rewrite !(filter_cons _ x), IHl by (by constructor).
        case_decide as Hvx; [|done].
        rewrite (tied_below_none v x (y :: r)); [done|done|].
        constructor; [done|].
        eapply Forall_impl; [exact Hy|]. intros e He.
        destruct (swo_neg_trans cmp Hswo x e y Hxy) as [|Hey]; [done|].
        unfold not_after in He. congruence.
      * rewrite !(filter_cons _ y), IHr. by case_decide.
Qed.

Lemma merge_both_right_step (arr : list A) a size temp i1 i2 tempi tmp x y :
  (i1 < size / 2)%nat -> (i2 < size)%nat ->
  load arr (a + i1) = Some x -> load arr (a + i2) = Some y ->
  cmp x y = false -> (temp + tempi < length tmp)%nat ->
  merge_both cmp arr a size temp i1 i2 tempi tmp
  = merge_both cmp arr a size temp i1 (i2 + 1) (tempi + 1)
               (<[(temp + tempi)%nat := y]> tmp).
Proof.
  intros H1 H2 Hx Hy Hxy Ht.
  rewrite (merge_both_equation_1 cmp arr a size temp i1 i2 tempi tmp).
  destruct (lt_dec i1 (size / 2)); [|lia]. cbn.
  destruct (lt_dec i2 size); [|lia]. cbn.
  unfold compare_at. rewrite Hx, Hy. cbn. rewrite Hxy. cbn.
  unfold emit. rewrite Hy. cbn. unfold store. rewrite decide_True by done.
  done.
Qed.
End MergeTies.

(** C2 (amended).  In the merge step, whenever the current left-half element
    and the current right-half element tie, the element of the right half is
    emitted first; so, the right half being sorted, the merged range holds the
    elements tied with any given value with those of the right half first and
    those of the left half after them. *)
Theorem merge_ties_favor_right_half {A : Type} (defaultPolicy : ExecutionPolicy)
    (compareFn : A -> A -> bool) (a size temp : nat) (st : SortState A)
    (P L R Q TP TX TQ : list A) :
  StrictWeakOrder compareFn -> non_decreasing compareFn R ->
  main st = P ++ (L ++ R) ++ Q -> length P = a ->
  length L = (size / 2)%nat -> (length L + length R)%nat = size ->
  scratch st = TP ++ TX ++ TQ -> length TP = temp -> length TX = size ->
  (forall i1 i2 tempi tmp x y,
      (i1 < size / 2)%nat -> (i2 < size)%nat ->
      load (main st) (a + i1) = Some x -> load (main st) (a + i2) = Some y ->
      tied compareFn x y -> (temp + tempi < length tmp)%nat ->
      merge_both compareFn (main st) a size temp i1 i2 tempi tmp
      = merge_both compareFn (main st) a size temp i1 (i2 + 1) (tempi + 1)
                   (<[(temp + tempi)%nat := y]> tmp))
  /\ exists M,
      merge defaultPolicy compareFn a size temp st
      = Some (mkSortState (P ++ M ++ Q) (TP ++ M ++ TQ)
                          (events st ++ [MergeCall a size temp]))
      /\ M ≡ₚ L ++ R
      /\ forall v, filter (tied compareFn v) M
                   = filter (tied compareFn v) R ++ filter (tied compareFn v) L.
Proof.
  intros Hswo HR Hmain HP HL HLR Hscr HTP HTX. split.
  - intros i1 i2 tempi tmp x y H1 H2 Hx Hy [Hxy _] Ht.
    by apply merge_both_right_step with (x := x).
  - exists (merge_lists compareFn L R). split_and!.
    + by apply (merge_spec defaultPolicy compareFn a size temp st P L R Q TP TX TQ).
    + apply merge_lists_Permutation.
    + apply merge_lists_ties; [done|]. by apply non_decreasing_StronglySorted.
Qed.

Lemma merge_ties_favor_right_half_witness :
  (forall i1 i2 tempi tmp x y,
      (i1 < 2 / 2)%nat -> (i2 < 2)%nat ->
      load [(1, 10); (1, 20)] (0 + i1) = Some x ->
      load [(1, 10); (1, 20)] (0 + i2) = Some y ->
      tied key_less x y -> (0 + tempi < length tmp)%nat ->
      merge_both key_less [(1, 10); (1, 20)] 0 2 0 i1 i2 tempi tmp
      = merge_both key_less [(1, 10); (1, 20)] 0 2 0 i1 (i2 + 1) (tempi + 1)
                   (<[(0 + tempi)%nat := y]> tmp))
  /\ exists M,
      merge kParallel key_less 0 2 0 (mkSortState [(1, 10); (1, 20)] [(0, 0); (0, 0)] [])
      = Some (mkSortState ([] ++ M ++ []) ([] ++ M ++ []) ([] ++ [MergeCall 0 2 0]))
      /\ M ≡ₚ [(1, 10)] ++ [(1, 20)]
      /\ forall v, filter (tied key_less v) M
                   = filter (tied key_less v) [(1, 20)]
                       ++ filter (tied key_less v) [(1, 10)].
Proof.
  apply (merge_ties_favor_right_half kParallel key_less 0 2 0
           (mkSortState [(1, 10); (1, 20)] [(0, 0); (0, 0)] [])
           [] [(1, 10)] [(1, 20)] [] [] [(0, 0); (0, 0)] []).
  - exact key_less_StrictWeakOrder.
  - intros i j x y Hij Hi Hj. destruct i, j; cbn in *; try lia; done.
  - reflexivity.
  - reflexivity.
  - reflexivity.
  - reflexivity.
  - reflexivity.
  - reflexivity.
  - reflexivity.
Defined.

(** C2 as stated fails: of two tied records, the merge emits the one of the
    right half first. *)
Lemma merge_ties_favor_left_counterexample :
  merge kParallel key_less 0 2 0 (mkSortState [(1, 10); (1, 20)] [(0, 0); (0, 0)] [])
  = Some (mkSortState [(1, 20); (1, 10)] [(1, 20); (1, 10)] [MergeCall 0 2 0])
  /\ tied key_less (1, 10) (1, 20)
  /\ merge_both key_less [(1, 10); (1, 20)] 0 2 0 0 1 0 [(0, 0); (0, 0)]
     <> merge_both key_less [(1, 10); (1, 20)] 0 2 0 1 1 1 [(1, 10); (0, 0)].
Proof.
  split_and!; [vm_compute; reflexivity | split; reflexivity | vm_compute; discriminate].
Qed.

(** ** Which path the recursive sort takes *)

(** C10.  With a worker budget of zero [parallelMergeSort] returns at once:
    the array, the scratch buffer and the record of calls are unchanged, so
    no sequential sort, no recursive launch and no merge has taken place. *)
Theorem parallelMergeSort_zero_workers_noop {A : Type}
    (std_sort : (A -> A -> bool) -> list A -> list A)
    (defaultPolicy : ExecutionPolicy) (compareFn : A -> A -> bool)
    (a size temp : nat) (st : SortState A) :
  parallelMergeSort std_sort defaultPolicy compareFn a size temp 0 st = Some st.
Proof.
  (* neither [numThreads == 1] nor [numThreads > 1] holds *)
  rewrite parallelMergeSort_equation_1.
  destruct (Nat.eq_dec 0%nat 1%nat) as [Hone|Hne]; [discriminate Hone|]. cbn.
  destruct (lt_dec 1%nat 0%nat) as [Hgt|Hle]; [exfalso; revert Hgt; apply Nat.nlt_0_r|].
  reflexivity.
Qed.

(** C4 (amended).  [parallelMergeSort] takes its base case, one in-place
    [std::sort] over the whole sub-array with no launch and no merge, exactly
    when the worker budget is 1, whatever the size; with a budget of two or
    more it splits, also when the size is at most 1: the left task is launched
    with [numThreads / 2] workers, the right one with
    [numThreads - numThreads / 2], and a merge follows. *)
Theorem parallelMergeSort_dispatch {A : Type}
    (std_sort : (A -> A -> bool) -> list A -> list A)
    (defaultPolicy : ExecutionPolicy) (compareFn : A -> A -> bool)
    (a size temp numThreads : nat) (st : SortState A) :
  StrictWeakOrder compareFn -> std_sort_contract std_sort ->
  (a + size <= length (main st))%nat -> (temp + size <= length (scratch st))%nat ->
  (mergeSort_events std_sort defaultPolicy compareFn a size temp numThreads st
   = Some [StdSortCall a size] <-> numThreads = 1%nat)
  /\ ((2 <= numThreads)%nat ->
      exists evL evR,
        mergeSort_events std_sort defaultPolicy compareFn a size temp numThreads st
        = Some (LaunchRangeCall a (size / 2) temp (numThreads / 2) :: evL
                ++ LaunchRangeCall (a + size / 2) (size - size / 2) (temp + size / 2)
                     (numThreads - numThreads / 2) :: evR
                ++ [MergeCall a size temp])).
Proof.
  intros Hswo Hstd Ha Ht. unfold mergeSort_events.
  destruct (Nat.eq_dec numThreads 0%nat) as [->|Hpos].
  { simp parallelMergeSort. cbn.
    split; [split; [done|lia] | lia]. }
  destruct (sub_array_split a (a + size) (main st) ltac:(lia) Ha) as (Hm & HlenP & HlenX).
  destruct (sub_array_split temp (temp + size) (scratch st) ltac:(lia) Ht)
    as (Hs & HlenTP & HlenTX).
  replace (a + size - a)%nat with size in * by lia.
  replace (temp + size - temp)%nat with size in * by lia.
  destruct (parallelMergeSort_spec std_sort defaultPolicy compareFn Hswo Hstd
              numThreads a size temp
              (mkSortState (main st) (scratch st) [])
              _ _ _ _ _ _ ltac:(lia) Hm HlenP HlenX Hs HlenTP HlenTX)
    as (X' & TX' & ev & -> & _ & _ & _ & Hev).
  cbn. unfold dispatch_events in Hev. case_decide as Hone.
  - subst ev. split; [done | lia].
  - destruct Hev as (evL & evR & ->). split.
    + split; [done | lia].
    + intros _. by exists evL, evR.
Qed.

Lemma parallelMergeSort_dispatch_witness :
  (mergeSort_events (@insertion_sort Z) kParallel Z.ltb 0 3 0 2
                    (mkSortState [3; 1; 2] [0; 0; 0] [])
   = Some [StdSortCall 0 3] <-> 2%nat = 1%nat)
  /\ ((2 <= 2)%nat ->
      exists evL evR,
        mergeSort_events (@insertion_sort Z) kParallel Z.ltb 0 3 0 2
                         (mkSortState [3; 1; 2] [0; 0; 0] [])
        = Some (LaunchRangeCall 0 (3 / 2) 0 (2 / 2) :: evL
                ++ LaunchRangeCall (0 + 3 / 2) (3 - 3 / 2) (0 + 3 / 2) (2 - 2 / 2)
                     :: evR
                ++ [MergeCall 0 3 0])).
Proof.
  apply (parallelMergeSort_dispatch (@insertion_sort Z) kParallel Z.ltb 0 3 0 2
           (mkSortState [3; 1; 2] [0; 0; 0] [])).
  - exact Z_ltb_StrictWeakOrder.
  - exact insertion_sort_contract.
  - cbn. lia.
  - cbn. lia.
Defined.

(** C4 as stated fails on both sides: a sub-array of size 1 sorted with two
    workers is split and merged, and a budget of zero does not sort at all. *)
Lemma parallelMergeSort_base_case_counterexample :
  mergeSort_events (@insertion_sort Z) kParallel Z.ltb 0 1 0 2 (mkSortState [7] [0] [])
  = Some [LaunchRangeCall 0 0 0 1; StdSortCall 0 0;
          LaunchRangeCall 0 1 0 1; StdSortCall 0 1; MergeCall 0 1 0]
  /\ mergeSort_events (@insertion_sort Z) kParallel Z.ltb 0 2 0 0
                      (mkSortState [2; 1] [0; 0] [])
     = Some []
  /\ parallelMergeSort (@insertion_sort Z) kParallel Z.ltb 0 2 0 0
                       (mkSortState [2; 1] [0; 0] [])
     = Some (mkSortState [2; 1] [0; 0] []).
Proof. split_and!; vm_compute; reflexivity. Qed.

(** ** Inverted domains *)

(** C8.  On an inverted domain every entry point returns without a fault and
    without effect: [parallelFor] and [parallelRangeFor] with [start > end]
    hand the state back and call nothing, [parallelFill] with
    [end - begin <= 0] and [parallelSort] with [end < begin] return the array
    as it was. *)
Theorem inverted_domains_are_silent_noops {S T A : Type} (ty : IndexType)
    (start end_ : Z) (fn : Z -> S -> S) (rangeFn : Z -> Z -> S -> S) (s : S)
    (fillBegin fillEnd : nat) (value : T) (cells : list T)
    (std_sort : (A -> A -> bool) -> list A -> list A)
    (defaultPolicy : ExecutionPolicy) (value_init : A) (compareFn : A -> A -> bool)
    (sortBegin sortEnd : nat) (arr : list A)
    (policy : ExecutionPolicy) (numThreadsHint : nat) :
  start > end_ ->
  Z.of_nat fillEnd - Z.of_nat fillBegin <= 0 ->
  (sortEnd < sortBegin)%nat ->
  parallelFor start end_ fn policy s = s
  /\ parallelFor_calls start end_ policy = []
  /\ parallelRangeFor ty start end_ rangeFn policy numThreadsHint s = s
  /\ parallelRangeFor_calls ty start end_ policy numThreadsHint = []
  /\ parallelFill fillBegin fillEnd value policy cells = Some cells
  /\ parallelSort std_sort defaultPolicy value_init compareFn sortBegin sortEnd
                  policy numThreadsHint arr = Some arr.
Proof.
  intros Hinv Hfill Hsort.
  unfold parallelFor_calls, parallelRangeFor_calls, parallelFor, parallelRangeFor,
    parallelFill, parallelSort.
  destruct (Z.gtb_spec start end_); [|lia].
  destruct (Z.leb_spec (Z.of_nat fillEnd - Z.of_nat fillBegin) 0); [|lia].
  destruct (Nat.ltb_spec sortEnd sortBegin); [|lia].
  done.
Qed.

Lemma inverted_domains_are_silent_noops_witness :
  parallelFor 5 2 (fun i (out : list Z) => i :: out) kParallel [] = []
  /\ parallelFor_calls 5 2 kParallel = []
  /\ parallelRangeFor size_t 5 2 (fun k1 k2 (out : list Z) => k1 :: k2 :: out)
                      kParallel 4 []
     = []
  /\ parallelRangeFor_calls size_t 5 2 kParallel 4 = []
  /\ parallelFill 3 1 7 kParallel [1; 2; 3; 4] = Some [1; 2; 3; 4]
  /\ parallelSort (@insertion_sort Z) kParallel 0 Z.ltb 3 1 kParallel 4 [4; 3; 2; 1]
     = Some [4; 3; 2; 1].
Proof.
  apply (inverted_domains_are_silent_noops size_t 5 2
           (fun i (out : list Z) => i :: out)
           (fun k1 k2 (out : list Z) => k1 :: k2 :: out) [] 3 1 7 [1; 2; 3; 4]
           (@insertion_sort Z) kParallel 0 Z.ltb 3 1 [4; 3; 2; 1] kParallel 4);
    lia.
Defined.

(** * Further properties of the code *)

(** ** Effect of the range loop *)

Lemma launchLoop_effect {S : Type} ty (func : Z -> Z -> S -> S) (s0 : S)
    end_ slice numThreads tid i1 i2 tr :
  forall t' i' tr',
    launchLoop ty (fun _ k1 k2 => record_range k1 k2) end_ slice numThreads
               tid i1 i2 tr = (t', i', tr') ->
    launchLoop ty (fun _ k1 k2 => func k1 k2) end_ slice numThreads tid i1 i2
               (foldl (fun s r => func r.1 r.2 s) s0 tr)
    = (t', i', foldl (fun s r => func r.1 r.2 s) s0 tr').
Proof.
  funelim (launchLoop ty (fun _ k1 k2 => record_range k1 k2) end_ slice numThreads
                      tid i1 i2 tr); intros t' i' tr' Hrun.
  - simp launchLoop. rewrite Heq, Heq0. cbn.
    unfold async, schedule, record_range in *.
    specialize (H S func s0 t' i' tr' Hrun). rewrite foldl_snoc in H. exact H.
  - simp launchLoop. rewrite Heq, Heq0. cbn. congruence.
  - simp launchLoop. rewrite Heq. cbn. congruence.
Qed.

Lemma rangeFor_with_effect {S : Type} ty numThreads start end_
    (func : Z -> Z -> S -> S) (s : S) :
  rangeFor_with ty numThreads start end_ func s
  = foldl (fun s r => func r.1 r.2 s) s (rangeFor_calls ty numThreads start end_).
Proof.
  unfold rangeFor_calls, rangeFor_with.
  destruct (launchLoop ty (fun _ k1 k2 => record_range k1 k2) end_
              (sliceSize ty start end_ numThreads) numThreads 0 start
              (Z.min (wrap ty (start + sliceSize ty start end_ numThreads)) end_) [])
    as [[t' i'] tr'] eqn:Hrun.
  pose proof (launchLoop_effect ty func s _ _ _ _ _ _ _ _ _ _ Hrun) as Heff.
  cbn [foldl] in Heff. rewrite Heff.
  destruct (i' <? end_); [|done].
  unfold async, schedule, record_range. by rewrite foldl_snoc.
Qed.

Lemma foldl_concat {S B : Type} (f : S -> B -> S) (s : S) (ls : list (list B)) :
  foldl f s (concat ls) = foldl (fun s l => foldl f s l) s ls.
Proof.
  revert s. induction ls as [|l ls IH]; intros s; cbn; [done|].
  by rewrite foldl_app, IH.
Qed.

Lemma foldl_pointwise {S B : Type} (f g : S -> B -> S) (s : S) (l : list B) :
  (forall s x, f s x = g s x) -> foldl f s l = foldl g s l.
Proof.
  intros Hfg. revert s. induction l as [|x l IH]; intros s; cbn; [done|].
  by rewrite Hfg, IH.
Qed.

(** X2.  While the index arithmetic of the partitioning does not overflow, a
    per-range callable that loops over its sub-range gives [parallelRangeFor],
    for both policies and every worker hint, the effect of the serial
    per-index [parallelFor] with the loop body: the indices are visited once
    each, in increasing order. *)
Theorem parallelRangeFor_inner_loop_is_serial_loop {S : Type} (ty : IndexType)
    (start end_ : Z) (fn : Z -> S -> S) (policy : ExecutionPolicy)
    (numThreadsHint : nat) (s : S) :
  no_overflow ty start end_ (resolveNumThreads policy numThreadsHint) = true ->
  parallelRangeFor ty start end_ (fun k1 k2 => index_loop fn k2 k1) policy
                   numThreadsHint s
  = parallelFor start end_ fn kSerial s.
Proof.
  intros Hno. rewrite parallelFor_foldl. unfold parallelRangeFor.
  destruct (Z.gtb_spec start end_) as [Hgt|Hle].
  { rewrite seqZ_nil by lia. done. }
  rewrite rangeFor_with_effect.
  pose proof (resolveNumThreads_pos policy numThreadsHint) as Hn.
  destruct (rangeFor_calls_contiguous ty _ start end_ Hn Hle Hno) as [Hc _].
  rewrite <- (contiguous_concat _ _ _ Hc), foldl_concat, foldl_fmap.
  apply foldl_pointwise. intros s' r. apply index_loop_foldl.
Qed.

Lemma parallelRangeFor_inner_loop_is_serial_loop_witness :
  parallelRangeFor ptrdiff_t (-3) 8
                   (fun k1 k2 => index_loop (fun i out => out ++ [i * i]) k2 k1)
                   kParallel 4 []
  = parallelFor (-3) 8 (fun i out => out ++ [i * i]) kSerial [].
Proof.
  apply (parallelRangeFor_inner_loop_is_serial_loop ptrdiff_t (-3) 8
           (fun i out => out ++ [i * i]) kParallel 4 []).
  vm_compute. reflexivity.
Defined.

(** ** One worker, and the size of the slices *)

Lemma rangeFor_calls_one_worker ty start end_ :
  rangeFor_calls ty 1 start end_
  = if decide (start < end_) then [(start, end_)] else [].
Proof.
  unfold rangeFor_calls, rangeFor_with. simp launchLoop. cbn.
  destruct (Z.ltb_spec start end_); case_decide; try lia; done.
Qed.

(** X3.  With one worker the whole domain is a single slice: under the serial
    policy (whatever the hint), and under the parallel policy with a hint of
    1, the callable of [parallelRangeFor] is called once, on [(start, end)],
    when the domain is not empty, and not at all otherwise. *)
Theorem parallelRangeFor_one_worker_single_slice (ty : IndexType) (start end_ : Z)
    (numThreadsHint : nat) :
  parallelRangeFor_calls ty start end_ kSerial numThreadsHint
  = (if decide (start < end_) then [(start, end_)] else [])
  /\ parallelRangeFor_calls ty start end_ kParallel 1
     = (if decide (start < end_) then [(start, end_)] else []).
Proof.
  unfold parallelRangeFor_calls, parallelRangeFor. cbn [resolveNumThreads Nat.eqb].
  destruct (Z.gtb_spec start end_) as [Hgt|Hle].
  - rewrite decide_False by lia. done.
  - split; apply rangeFor_calls_one_worker.
Qed.

Lemma launchLoop_slice_sizes ty end_ slice numThreads tid i1 i2 tr :
  1 <= slice -> index_min ty <= i1 ->
  Z.min (i1 + (Z.of_nat numThreads - 1 - Z.of_nat tid) * slice) end_ + slice
    <= index_max ty ->
  i1 <= end_ -> i2 = Z.min (i1 + slice) end_ ->
  Forall (fun r => r.2 - r.1 = slice \/ r.2 = end_) tr ->
  Forall (fun r => r.2 - r.1 = slice \/ r.2 = end_)
         (launchLoop ty (fun _ k1 k2 => record_range k1 k2) end_ slice numThreads
                     tid i1 i2 tr).2.
Proof.
  intros Hs.
  funelim (launchLoop ty (fun _ k1 k2 => record_range k1 k2) end_ slice numThreads
                      tid i1 i2 tr); intros Hmin Hmax Hi1 Hi2 Htr; [|done..].
  pose proof (Z.mul_nonneg_nonneg (Z.of_nat numThreads - 2 - Z.of_nat tid) slice
                ltac:(lia) ltac:(lia)) as Hrest.
  apply H; [done | lia | lia | lia | f_equal; apply wrap_between; lia |].
  unfold async, schedule, record_range.
  apply Forall_app. split; [done|]. constructor; [|done]. cbn. lia.
Qed.

(** X4.  While the index arithmetic of the partitioning does not overflow,
    every sub-range except the last one has exactly the slice size the code
    computes, the rounded [double] quotient of [end - start + 1] by
    [numThreads], or 1 if that is less; only the last one absorbs the
    remainder. *)
Theorem parallelRangeFor_slices_have_slice_size (ty : IndexType) (numThreads : nat)
    (start end_ : Z) :
  (1 <= numThreads)%nat -> start <= end_ ->
  no_overflow ty start end_ numThreads = true ->
  forall i r, rangeFor_calls ty numThreads start end_ !! i = Some r ->
              (S i < length (rangeFor_calls ty numThreads start end_))%nat ->
              r.2 - r.1 = Z.max (round_div (end_ - start + 1) numThreads) 1.
Proof.
  intros Hn Hse Hno i r Hi Hlast.
  destruct (rangeFor_calls_contiguous ty numThreads start end_ Hn Hse Hno) as [Hc _].
  destruct (no_overflow_spec _ _ _ _ Hno) as (Hmin & Hslice & Hmax).
  rewrite <- Hslice.
  pose proof (sliceSize_pos ty start end_ numThreads) as Hpos.
  pose proof (Z.mul_nonneg_nonneg (Z.of_nat numThreads - 1)
                (sliceSize ty start end_ numThreads) ltac:(lia) ltac:(lia)) as Hrest.
  assert (Forall (fun r => r.2 - r.1 = sliceSize ty start end_ numThreads
                           \/ r.2 = end_)
                 (rangeFor_calls ty numThreads start end_)) as Hall.
  { unfold rangeFor_calls, rangeFor_with.
    rewrite (wrap_between ty (start + _)) by lia.
    pose proof (launchLoop_slice_sizes ty end_ (sliceSize ty start end_ numThreads)
                  numThreads 0 start
                  (Z.min (start + sliceSize ty start end_ numThreads) end_) []
                  Hpos Hmin ltac:(by rewrite Z.sub_0_r) Hse eq_refl
                  ltac:(constructor)) as Hloop.
    destruct (launchLoop _ _ _ _ _ _ _ _ _) as [[t' i'] tr']. cbn in Hloop.
    destruct (i' <? end_); [|done].
    unfold async, schedule, record_range. apply Forall_app. split; [done|].
    constructor; [|done]. by right. }
  rewrite Forall_lookup in Hall. destruct (Hall i r Hi) as [|Hend]; [done|].
  destruct (lookup_lt_is_Some_2 _ _ Hlast) as [r' Hr'].
  pose proof (contiguous_adjacent _ _ _ _ _ _ Hc Hi Hr') as Hadj.
  destruct (contiguous_lookup _ _ _ _ _ Hc Hr') as (_ & ? & ?). lia.
Qed.

Lemma parallelRangeFor_slices_have_slice_size_witness :
  rangeFor_calls size_t 4 0 10 !! 1%nat = Some (3, 6)
  /\ (2 < length (rangeFor_calls size_t 4 0 10))%nat
  /\ (3, 6).2 - (3, 6).1 = Z.max (round_div (10 - 0 + 1) 4) 1.
Proof.
  split; [vm_compute; reflexivity|]. split; [vm_compute; lia|].
  apply (parallelRangeFor_slices_have_slice_size size_t 4 0 10 ltac:(lia) ltac:(lia)
           ltac:(vm_compute; reflexivity) 1%nat (3, 6));
    [vm_compute; reflexivity | vm_compute; lia].
Defined.

(** ** Reduction against the sequential fold *)

(** X5.  Under the serial policy [parallelReduce] over a non-empty domain maps
    the whole domain as one partition and combines the partial with the
    identity value: the result is [combineFn (mapFn start end identity)
    identity]. *)
Theorem parallelReduce_serial_single_partition {Value : Type} (ty : IndexType)
    (identity : Value) (mapFn : Z -> Z -> Value -> Value)
    (combineFn : Value -> Value -> Value) (start end_ : Z) (numThreadsHint : nat) :
  start < end_ ->
  parallelReduce ty identity mapFn combineFn start end_ kSerial numThreadsHint
  = Some (combineFn (mapFn start end_ identity) identity).
Proof.
  intros Hlt. unfold parallelReduce. destruct (Z.gtb_spec start end_); [lia|].
  cbn [resolveNumThreads]. rewrite reduce_with_slots by lia.
  rewrite rangeFor_calls_one_worker, decide_True by done. reflexivity.
Qed.

Lemma parallelReduce_serial_single_partition_witness :
  parallelReduce size_t 0
                 (fun k1 k2 init => fold_range Z.add (fun i => i) init k1 k2)
                 Z.add 0 100 kSerial 4
  = Some (fold_range Z.add (fun i => i) 0 0 100 + 0).
Proof.
  apply (parallelReduce_serial_single_partition size_t 0
           (fun k1 k2 init => fold_range Z.add (fun i => i) init k1 k2)
           Z.add 0 100 4).
  lia.
Defined.

Section MonoidReduce.
Context {V : Type}.
Variable op : V -> V -> V.
Variable e : V.
Variable f : Z -> V.
Hypothesis op_assoc : forall x y z, op x (op y z) = op (op x y) z.
Hypothesis op_right_id : forall x, op x e = x.

Lemma fold_step_shift (a b : V) (l : list Z) :
  foldl (fun acc i => op acc (f i)) (op a b) l
  = op a (foldl (fun acc i => op acc (f i)) b l).
Proof.
  revert b. induction l as [|i l IH]; intros b; cbn; [done|].
  by rewrite <- op_assoc, IH.
Qed.

Lemma fold_chunks (a : V) (ranges : list (Z * Z)) :
  foldl op a ((fun r => fold_range op f e r.1 r.2) <$> ranges)
  = foldl (fun acc i => op acc (f i)) a
          (concat ((fun r => seqZ r.1 (r.2 - r.1)) <$> ranges)).
Proof.
  revert a. induction ranges as [|r ranges IH]; intros a; cbn; [done|].
  rewrite foldl_app, IH. f_equal. unfold fold_range.
  by rewrite <- fold_step_shift, op_right_id.
Qed.

Lemma fold_trailing_identity (a : V) (n : nat) : foldl op a (replicate n e) = a.
Proof. induction n as [|n IH]; cbn; [done|]. by rewrite op_right_id. Qed.
End MonoidReduce.

(** X6.  When the combining operation is associative with the identity value
    as right neutral element, the mapping function folds it over its
    sub-range and [combineFn value accumulator] appends the value to the
    accumulator, [parallelReduce] over a non-inverted domain whose index
    arithmetic does not overflow returns the sequential left fold over the
    whole domain, for both policies and every worker hint. *)
Theorem parallelReduce_is_sequential_fold {V : Type} (ty : IndexType)
    (op : V -> V -> V) (e : V)
    (f : Z -> V) (mapFn : Z -> Z -> V -> V) (combineFn : V -> V -> V)
    (start end_ : Z) (policy : ExecutionPolicy) (numThreadsHint : nat) :
  (forall x y z, op x (op y z) = op (op x y) z) ->
  (forall x, op x e = x) ->
  (forall k1 k2, mapFn k1 k2 e = fold_range op f e k1 k2) ->
  (forall value accumulator, combineFn value accumulator = op accumulator value) ->
  start <= end_ ->
  no_overflow ty start end_ (resolveNumThreads policy numThreadsHint) = true ->
  parallelReduce ty e mapFn combineFn start end_ policy numThreadsHint
  = Some (fold_range op f e start end_).
Proof.
  intros Hassoc Hid Hmap Hcomb Hse Hno. unfold parallelReduce.
  destruct (Z.gtb_spec start end_); [lia|].
  pose proof (resolveNumThreads_pos policy numThreadsHint) as Hn.
  rewrite reduce_with_slots by done. f_equal.
  destruct (rangeFor_calls_contiguous ty _ start end_ Hn Hse Hno) as [Hc _].
  unfold gather, slots.
  rewrite (foldl_pointwise _ op) by done.
  rewrite foldl_app, fold_trailing_identity by done.
  rewrite (list_fmap_ext _ (fun r => fold_range op f e r.1 r.2))
    by (intros; apply Hmap).
  rewrite fold_chunks by done. by rewrite (contiguous_concat _ _ _ Hc).
Qed.

Lemma parallelReduce_is_sequential_fold_witness :
  parallelReduce size_t 0
                 (fun k1 k2 init => fold_range Z.add (fun i => i * i) init k1 k2)
                 Z.add 3 50 kParallel 0
  = Some (fold_range Z.add (fun i => i * i) 0 3 50).
Proof.
  apply (parallelReduce_is_sequential_fold size_t Z.add 0 (fun i => i * i)
           (fun k1 k2 init => fold_range Z.add (fun i => i * i) init k1 k2)
           Z.add 3 50 kParallel 0); intros; try reflexivity; try lia.
Defined.

(** ** Two and three dimensions *)

Lemma foldl_record_fmap {B C : Type} (g : B -> C) (l : list B) (tr : list C) :
  foldl (fun tr x => tr ++ [g x]) tr l = tr ++ (g <$> l).
Proof.
  revert tr. induction l as [|x l IH]; intros tr; cbn.
  - by rewrite app_nil_r.
  - rewrite IH, <- app_assoc. done.
Qed.

Lemma foldl_record_bind {B C : Type} (g : B -> list C) (l : list B) (tr : list C) :
  foldl (fun tr x => tr ++ g x) tr l = tr ++ (l ≫= g).
Proof.
  revert tr. induction l as [|x l IH]; intros tr; cbn.
  - by rewrite app_nil_r.
  - rewrite IH, <- app_assoc. done.
Qed.

Lemma foldl_bind {S B C : Type} (f : S -> C -> S) (g : B -> list C) (s : S)
    (l : list B) :
  foldl f s (l ≫= g) = foldl (fun s x => foldl f s (g x)) s l.
Proof.
  revert s. induction l as [|x l IH]; intros s; cbn; [done|].
  by rewrite foldl_app, IH.
Qed.

(** The pairs of a box, row after row. *)
Lemma parallelFor2D_calls_rows bx ex by_ ey policy :
  parallelFor2D_calls bx ex by_ ey policy
  = seqZ by_ (ey - by_) ≫= (fun j => (fun i => (i, j)) <$> seqZ bx (ex - bx)).
Proof.
  unfold parallelFor2D_calls, parallelFor2D. rewrite parallelFor_foldl.
  rewrite (foldl_pointwise _
             (fun tr j => tr ++ ((fun i => (i, j)) <$> seqZ bx (ex - bx)))).
  - by rewrite foldl_record_bind.
  - intros tr j. rewrite index_loop_foldl. apply foldl_record_fmap.
Qed.

Lemma parallelFor2D_effect {S : Type} bx ex by_ ey (function : Z -> Z -> S -> S)
    policy s :
  parallelFor2D bx ex by_ ey function policy s
  = foldl (fun s p => function p.1 p.2 s) s (parallelFor2D_calls bx ex by_ ey policy).
Proof.
  rewrite parallelFor2D_calls_rows, foldl_bind.
  unfold parallelFor2D. rewrite parallelFor_foldl.
  apply foldl_pointwise. intros s' j. by rewrite index_loop_foldl, foldl_fmap.
Qed.

(** X7.  For every box and both policies, the two-dimensional [parallelFor]
    calls its function exactly once on each pair [(i, j)] with
    [beginX <= i < endX] and [beginY <= j < endY] and on no other pair; an
    empty or inverted extent in either dimension gives no call.  Under the
    serial policy the calls come row by row ([j] outermost, [i] increasing
    within a row), and the effect is that of these calls in that order. *)
Theorem parallelFor2D_visits_each_pair_once
    (beginIndexX endIndexX beginIndexY endIndexY : Z) :
  (forall policy,
      NoDup (parallelFor2D_calls beginIndexX endIndexX beginIndexY endIndexY policy)
      /\ (forall i j,
            (i, j) ∈ parallelFor2D_calls beginIndexX endIndexX beginIndexY endIndexY
                                         policy
            <-> (beginIndexX <= i < endIndexX /\ beginIndexY <= j < endIndexY)))
  /\ parallelFor2D_calls beginIndexX endIndexX beginIndexY endIndexY kSerial
     = (seqZ beginIndexY (endIndexY - beginIndexY) ≫= fun j =>
        (fun i => (i, j)) <$> seqZ beginIndexX (endIndexX - beginIndexX))
  /\ (forall (S : Type) (function : Z -> Z -> S -> S) (s : S),
        parallelFor2D beginIndexX endIndexX beginIndexY endIndexY function kSerial s
        = foldl (fun s p => function p.1 p.2 s) s
                (parallelFor2D_calls beginIndexX endIndexX beginIndexY endIndexY
                                     kSerial)).
Proof.
  split_and!.
  - intros policy. rewrite parallelFor2D_calls_rows. split.
    + apply NoDup_bind.
      * intros j1 j2 p _ _ (i1 & -> & _)%list_elem_of_fmap
          (i2 & [= _ ->] & _)%list_elem_of_fmap. done.
      * intros j _. apply NoDup_fmap_2; [|apply NoDup_seqZ].
        intros i1 i2 [= ->]. done.
      * apply NoDup_seqZ.
    + intros i j. rewrite list_elem_of_bind. split.
      * intros (j' & (i' & [= -> ->] & Hi)%list_elem_of_fmap & Hj).
        apply elem_of_seqZ in Hi, Hj. lia.
      * intros [Hi Hj]. exists j. split.
        -- apply list_elem_of_fmap. exists i. split; [done|].
           apply elem_of_seqZ. lia.
        -- apply elem_of_seqZ. lia.
  - apply parallelFor2D_calls_rows.
  - intros. apply parallelFor2D_effect.
Qed.

Lemma parallelFor3D_calls_planes bx ex by_ ey bz ez policy :
  parallelFor3D_calls bx ex by_ ey bz ez policy
  = seqZ bz (ez - bz) ≫= (fun k =>
      seqZ by_ (ey - by_) ≫= (fun j =>
        (fun i => (i, j, k)) <$> seqZ bx (ex - bx))).
Proof.
  unfold parallelFor3D_calls, parallelFor3D. rewrite parallelFor_foldl.
  rewrite (foldl_pointwise _
             (fun tr k => tr ++ (seqZ by_ (ey - by_) ≫= (fun j =>
                                   (fun i => (i, j, k)) <$> seqZ bx (ex - bx))))).
  - by rewrite foldl_record_bind.
  - intros tr k. rewrite index_loop_foldl.
    rewrite (foldl_pointwise _
               (fun tr j => tr ++ ((fun i => (i, j, k)) <$> seqZ bx (ex - bx)))).
    + by rewrite foldl_record_bind.
    + intros tr' j. rewrite index_loop_foldl. apply foldl_record_fmap.
Qed.

Lemma parallelFor3D_effect {S : Type} bx ex by_ ey bz ez
    (function : Z -> Z -> Z -> S -> S) policy s :
  parallelFor3D bx ex by_ ey bz ez function policy s
  = foldl (fun s p => function p.1.1 p.1.2 p.2 s) s
          (parallelFor3D_calls bx ex by_ ey bz ez policy).
Proof.
  rewrite parallelFor3D_calls_planes, foldl_bind.
  unfold parallelFor3D. rewrite parallelFor_foldl.
  apply foldl_pointwise. intros s' k. rewrite index_loop_foldl, foldl_bind.
  apply foldl_pointwise. intros s'' j. by rewrite index_loop_foldl, foldl_fmap.
Qed.

(** X8.  For every box and both policies, the three-dimensional [parallelFor]
    calls its function exactly once on each triple [(i, j, k)] of the box and
    on no other triple.  Under the serial policy the calls come plane by
    plane ([k] outermost, then [j], then [i]), and the effect is that of
    these calls in that order. *)
Theorem parallelFor3D_visits_each_triple_once
    (beginIndexX endIndexX beginIndexY endIndexY beginIndexZ endIndexZ : Z) :
  (forall policy,
      NoDup (parallelFor3D_calls beginIndexX endIndexX beginIndexY endIndexY
                                 beginIndexZ endIndexZ policy)
      /\ (forall i j k,
            (i, j, k) ∈ parallelFor3D_calls beginIndexX endIndexX beginIndexY
                                            endIndexY beginIndexZ endIndexZ policy
            <-> (beginIndexX <= i < endIndexX /\ beginIndexY <= j < endIndexY
                 /\ beginIndexZ <= k < endIndexZ)))
  /\ parallelFor3D_calls beginIndexX endIndexX beginIndexY endIndexY
                         beginIndexZ endIndexZ kSerial
     = (seqZ beginIndexZ (endIndexZ - beginIndexZ) ≫= fun k =>
        seqZ beginIndexY (endIndexY - beginIndexY) ≫= fun j =>
        (fun i => (i, j, k)) <$> seqZ beginIndexX (endIndexX - beginIndexX))
  /\ (forall (S : Type) (function : Z -> Z -> Z -> S -> S) (s : S),
        parallelFor3D beginIndexX endIndexX beginIndexY endIndexY
                      beginIndexZ endIndexZ function kSerial s
        = foldl (fun s p => function p.1.1 p.1.2 p.2 s) s
                (parallelFor3D_calls beginIndexX endIndexX beginIndexY endIndexY
                                     beginIndexZ endIndexZ kSerial)).
Proof.
  split_and!.
  - intros policy. rewrite parallelFor3D_calls_planes. split.
    + apply NoDup_bind.
      * intros k1 k2 p _ _
          (j1 & (i1 & -> & _)%list_elem_of_fmap & _)%list_elem_of_bind
          (j2 & (i2 & [= _ _ ->] & _)%list_elem_of_fmap & _)%list_elem_of_bind.
        done.
      * intros k _. apply NoDup_bind.
        -- intros j1 j2 p _ _ (i1 & -> & _)%list_elem_of_fmap
             (i2 & [= _ ->] & _)%list_elem_of_fmap. done.
        -- intros j _. apply NoDup_fmap_2; [|apply NoDup_seqZ].
           intros i1 i2 [= ->]. done.
        -- apply NoDup_seqZ.
      * apply NoDup_seqZ.
    + intros i j k. rewrite list_elem_of_bind. split.
      * intros (k' & (j' & (i' & [= -> -> ->] & Hi)%list_elem_of_fmap
                      & Hj)%list_elem_of_bind & Hk).
        apply elem_of_seqZ in Hi, Hj, Hk. lia.
      * intros (Hi & Hj & Hk). exists k. split; [|apply elem_of_seqZ; lia].
        apply list_elem_of_bind. exists j. split; [|apply elem_of_seqZ; lia].
        apply list_elem_of_fmap. exists i. split; [done|]. apply elem_of_seqZ. lia.
  - apply parallelFor3D_calls_planes.
  - intros. apply parallelFor3D_effect.
Qed.

(** X9.  The two- and the three-dimensional [parallelRangeFor] partition the
    outermost dimension only: the callable receives, for each sub-range of
    the one-dimensional partition of that dimension and in the same order,
    the extents of the inner dimensions as they were given (whether empty or
    inverted) together with that sub-range; the effect is that of these
    calls. *)
Theorem parallelRangeFor_2D_3D_partition_outermost (ty : IndexType)
    (beginIndexX endIndexX beginIndexY endIndexY beginIndexZ endIndexZ : Z)
    (policy : ExecutionPolicy) (numThreadsHint : nat) :
  parallelRangeFor2D_calls ty beginIndexX endIndexX beginIndexY endIndexY policy
                           numThreadsHint
  = ((fun r => (beginIndexX, endIndexX, r.1, r.2))
       <$> parallelRangeFor_calls ty beginIndexY endIndexY policy numThreadsHint)
  /\ parallelRangeFor3D_calls ty beginIndexX endIndexX beginIndexY endIndexY
                              beginIndexZ endIndexZ policy numThreadsHint
     = ((fun r => (beginIndexX, endIndexX, beginIndexY, endIndexY, r.1, r.2))
          <$> parallelRangeFor_calls ty beginIndexZ endIndexZ policy numThreadsHint)
  /\ (forall (S : Type) (function : Z -> Z -> Z -> Z -> S -> S) (s : S),
        parallelRangeFor2D ty beginIndexX endIndexX beginIndexY endIndexY function
                           policy numThreadsHint s
        = foldl (fun s c => function c.1.1.1 c.1.1.2 c.1.2 c.2 s) s
                (parallelRangeFor2D_calls ty beginIndexX endIndexX beginIndexY
                                          endIndexY policy numThreadsHint))
  /\ (forall (S : Type) (function : Z -> Z -> Z -> Z -> Z -> Z -> S -> S) (s : S),
        parallelRangeFor3D ty beginIndexX endIndexX beginIndexY endIndexY
                           beginIndexZ endIndexZ function policy numThreadsHint s
        = foldl (fun s c => function c.1.1.1.1.1 c.1.1.1.1.2 c.1.1.1.2 c.1.1.2
                                     c.1.2 c.2 s) s
                (parallelRangeFor3D_calls ty beginIndexX endIndexX beginIndexY
                   endIndexY beginIndexZ endIndexZ policy numThreadsHint)).
Proof.
  assert (forall (S : Type) start end_ (func : Z -> Z -> S -> S) s,
            parallelRangeFor ty start end_ func policy numThreadsHint s
            = foldl (fun s r => func r.1 r.2 s) s
                    (parallelRangeFor_calls ty start end_ policy numThreadsHint))
    as Hfold.
  { intros S start end_ func s. unfold parallelRangeFor_calls, parallelRangeFor.
    destruct (start >? end_); [done|]. apply rangeFor_with_effect. }
  assert (parallelRangeFor2D_calls ty beginIndexX endIndexX beginIndexY endIndexY
            policy numThreadsHint
          = ((fun r => (beginIndexX, endIndexX, r.1, r.2))
               <$> parallelRangeFor_calls ty beginIndexY endIndexY policy
                     numThreadsHint)) as H2.
  { unfold parallelRangeFor2D_calls, parallelRangeFor2D. rewrite Hfold.
    apply (foldl_record_fmap (fun r => (beginIndexX, endIndexX, r.1, r.2)) _ []). }
  assert (parallelRangeFor3D_calls ty beginIndexX endIndexX beginIndexY endIndexY
            beginIndexZ endIndexZ policy numThreadsHint
          = ((fun r => (beginIndexX, endIndexX, beginIndexY, endIndexY, r.1, r.2))
               <$> parallelRangeFor_calls ty beginIndexZ endIndexZ policy
                     numThreadsHint)) as H3.
  { unfold parallelRangeFor3D_calls, parallelRangeFor3D. rewrite Hfold.
    apply (foldl_record_fmap
             (fun r => (beginIndexX, endIndexX, beginIndexY, endIndexY, r.1, r.2))
             _ []). }
  split_and!; [done|done|..].
  - intros S function s. rewrite H2, foldl_fmap. unfold parallelRangeFor2D.
    by rewrite Hfold.
  - intros S function s. rewrite H3, foldl_fmap. unfold parallelRangeFor3D.
    by rewrite Hfold.
Qed.

(** ** Fill *)

Lemma fill_prefix {T : Type} (begin : nat) (value : T) (P X Q : list T) (k : nat) :
  length P = begin -> (k <= length X)%nat ->
  foldl (fun s i => fill_at begin value i s) (Some (P ++ X ++ Q))
        (seqZ 0 (Z.of_nat k))
  = Some (P ++ replicate k value ++ drop k X ++ Q).
Proof.
  intros HP. induction k as [|k IH]; intros Hk.
  - cbn. by rewrite drop_0.
  - rewrite seqZ_S, foldl_snoc, IH by lia. cbn.
    rewrite Z.add_0_l, Nat2Z.id.
    destruct (lookup_lt_is_Some_2 X k ltac:(lia)) as [x Hx].
    rewrite (drop_S X x k Hx), app_assoc.
    rewrite (store_middle (P ++ replicate k value) x (drop (S k) X ++ Q))
      by (rewrite length_app, length_replicate; lia).
    f_equal. rewrite <- app_assoc. f_equal.
    change (replicate (S k) value) with (value :: replicate k value).
    rewrite (cons_middle value), app_assoc, <- replicate_S_end. done.
Qed.

(** X10.  For a range [begin <= end] inside the array and both policies,
    [parallelFill] returns the array with every cell of the range set to the
    value and every cell outside the range as it was. *)
Theorem parallelFill_fills_range {T : Type} (begin end_ : nat) (value : T)
    (policy : ExecutionPolicy) (cells : list T) :
  (begin <= end_)%nat -> (end_ <= length cells)%nat ->
  parallelFill begin end_ value policy cells
  = Some (take begin cells ++ replicate (end_ - begin) value ++ drop end_ cells).
Proof.
  intros Hbe Hel. unfold parallelFill.
  destruct (sub_array_split begin end_ cells Hbe Hel) as (Hcells & HlenP & HlenX).
  destruct (Z.leb_spec (Z.of_nat end_ - Z.of_nat begin) 0) as [Hle|Hgt].
  - replace (end_ - begin)%nat with 0%nat by lia. cbn.
    replace end_ with begin by lia. by rewrite take_drop.
  - rewrite parallelFor_foldl. unfold kZeroSize. rewrite Z.sub_0_r.
    replace (Z.of_nat end_ - Z.of_nat begin) with (Z.of_nat (end_ - begin)) by lia.
    rewrite Hcells at 1.
    rewrite (fill_prefix begin value _ _ _ (end_ - begin) HlenP) by lia.
    by rewrite drop_ge by lia.
Qed.

Lemma parallelFill_fills_range_witness :
  parallelFill 1 3 7 kParallel [1; 2; 3; 4]
  = Some (take 1 [1; 2; 3; 4] ++ replicate (3 - 1) 7 ++ drop 3 [1; 2; 3; 4]).
Proof. apply (parallelFill_fills_range 1 3 7 kParallel [1; 2; 3; 4]); cbn; lia. Defined.

(** ** The merge and the recursive sort on a sub-array *)

Section Windows.
Context {A : Type}.
Implicit Types l P M Q : list A.
Local Open Scope nat_scope.

Lemma window_split l a size :
  a + size <= length l ->
  l = take a l ++ sub_array l a size ++ drop (a + size) l
  /\ length (take a l) = a /\ length (sub_array l a size) = size.
Proof.
  intros Hb. destruct (sub_array_split a (a + size) l ltac:(lia) Hb) as (H1 & H2 & H3).
  replace (a + size - a) with size in * by lia. done.
Qed.

Lemma window_of_parts l P M Q a size :
  l = P ++ M ++ Q -> length P = a -> length M = size ->
  take a l = P /\ sub_array l a size = M /\ drop (a + size) l = Q.
Proof.
  intros -> HP HM. unfold sub_array. split_and!.
  - by rewrite take_app_length'.
  - rewrite drop_app_length' by done. by rewrite take_app_length'.
  - rewrite app_assoc, drop_app_length'; [done|]. rewrite length_app. lia.
Qed.

Lemma window_halves l a size :
  sub_array l a size
  = sub_array l a (size / 2) ++ sub_array l (a + size / 2) (size - size / 2).
Proof.
  unfold sub_array. rewrite <- drop_drop, take_take_drop. f_equal.
  pose proof (half_le size). lia.
Qed.
End Windows.

(** X11.  On a sub-array inside the array whose two halves are each sorted,
    with a scratch window inside the scratch buffer, [merge] returns and
    leaves in the sub-array a sorted permutation of its contents, of which the
    scratch window holds a copy; the array outside the sub-array and the
    scratch buffer outside the window are untouched. *)
Theorem merge_sorted_halves {A : Type} (defaultPolicy : ExecutionPolicy)
    (compareFn : A -> A -> bool) (a size temp : nat) (st : SortState A) :
  StrictWeakOrder compareFn ->
  (a + size <= length (main st))%nat -> (temp + size <= length (scratch st))%nat ->
  non_decreasing compareFn (sub_array (main st) a (size / 2)) ->
  non_decreasing compareFn (sub_array (main st) (a + size / 2) (size - size / 2)) ->
  exists st',
    merge defaultPolicy compareFn a size temp st = Some st'
    /\ sub_array (main st') a size ≡ₚ sub_array (main st) a size
    /\ non_decreasing compareFn (sub_array (main st') a size)
    /\ sub_array (scratch st') temp size = sub_array (main st') a size
    /\ take a (main st') = take a (main st)
    /\ drop (a + size) (main st') = drop (a + size) (main st)
    /\ take temp (scratch st') = take temp (scratch st)
    /\ drop (temp + size) (scratch st') = drop (temp + size) (scratch st).
Proof.
  intros Hswo Ha Ht HL HR.
  destruct (window_split (main st) a size Ha) as (Hm & HlenP & HlenX).
  destruct (window_split (scratch st) temp size Ht) as (Hs & HlenTP & HlenTX).
  rewrite window_halves in Hm, HlenX.
  set (L := sub_array (main st) a (size / 2)) in *.
  set (R := sub_array (main st) (a + size / 2) (size - size / 2)) in *.
  assert (length L = (size / 2)%nat) as HlenL.
  { unfold L, sub_array. rewrite length_take, length_drop.
    pose proof (half_le size). lia. }
  rewrite length_app in HlenX.
  eexists. split.
  { apply (merge_spec defaultPolicy compareFn a size temp st _ L R _ _ _ _
             Hm HlenP HlenL HlenX Hs HlenTP HlenTX). }
  cbn [main scratch].
  assert (length (merge_lists compareFn L R) = size) as HlenM
    by (rewrite merge_lists_length; lia).
  destruct (window_of_parts _ (take a (main st)) (merge_lists compareFn L R)
              (drop (a + size) (main st)) a size eq_refl HlenP HlenM)
    as (-> & -> & ->).
  destruct (window_of_parts _ (take temp (scratch st)) (merge_lists compareFn L R)
              (drop (temp + size) (scratch st)) temp size eq_refl HlenTP HlenM)
    as (-> & -> & ->).
  rewrite window_halves. fold L R. split_and!; try done.
  - apply merge_lists_Permutation.
  - apply non_decreasing_StronglySorted.
    apply merge_lists_sorted; [done|by apply non_decreasing_StronglySorted..].
Qed.

Lemma merge_sorted_halves_witness :
  exists st',
    merge kParallel Z.ltb 1 4 0 (mkSortState [9; 2; 5; 1; 7; 0] [0; 0; 0; 0; 0] [])
    = Some st'
    /\ sub_array (main st') 1 4 ≡ₚ sub_array [9; 2; 5; 1; 7; 0] 1 4
    /\ non_decreasing Z.ltb (sub_array (main st') 1 4)
    /\ sub_array (scratch st') 0 4 = sub_array (main st') 1 4
    /\ take 1 (main st') = take 1 [9; 2; 5; 1; 7; 0]
    /\ drop (1 + 4) (main st') = drop (1 + 4) [9; 2; 5; 1; 7; 0]
    /\ take 0 (scratch st') = take 0 [0; 0; 0; 0; 0]
    /\ drop (0 + 4) (scratch st') = drop (0 + 4) [0; 0; 0; 0; 0].
Proof.
  apply (merge_sorted_halves kParallel Z.ltb 1 4 0
           (mkSortState [9; 2; 5; 1; 7; 0] [0; 0; 0; 0; 0] [])).
  - exact Z_ltb_StrictWeakOrder.
  - cbn. lia.
  - cbn. lia.
  - apply non_decreasing_StronglySorted. vm_compute. repeat constructor.
  - apply non_decreasing_StronglySorted. vm_compute. repeat constructor.
Defined.

(** X12.  With a worker budget of at least 1, on a sub-array inside the array
    and a scratch window inside the scratch buffer, [parallelMergeSort]
    returns and leaves in the sub-array a sorted permutation of its contents;
    it changes the array nowhere outside the sub-array and the scratch buffer
    nowhere outside the window, and keeps the lengths of both. *)
Theorem parallelMergeSort_sorts_its_window {A : Type}
    (std_sort : (A -> A -> bool) -> list A -> list A)
    (defaultPolicy : ExecutionPolicy) (compareFn : A -> A -> bool)
    (a size temp numThreads : nat) (st : SortState A) :
  StrictWeakOrder compareFn -> std_sort_contract std_sort ->
  (1 <= numThreads)%nat ->
  (a + size <= length (main st))%nat -> (temp + size <= length (scratch st))%nat ->
  exists st',
    parallelMergeSort std_sort defaultPolicy compareFn a size temp numThreads st
    = Some st'
    /\ sub_array (main st') a size ≡ₚ sub_array (main st) a size
    /\ non_decreasing compareFn (sub_array (main st') a size)
    /\ take a (main st') = take a (main st)
    /\ drop (a + size) (main st') = drop (a + size) (main st)
    /\ take temp (scratch st') = take temp (scratch st)
    /\ drop (temp + size) (scratch st') = drop (temp + size) (scratch st)
    /\ length (main st') = length (main st)
    /\ length (scratch st') = length (scratch st).
Proof.
  intros Hswo Hstd Hn Ha Ht.
  destruct (window_split (main st) a size Ha) as (Hm & HlenP & HlenX).
  destruct (window_split (scratch st) temp size Ht) as (Hs & HlenTP & HlenTX).
  destruct (parallelMergeSort_spec std_sort defaultPolicy compareFn Hswo Hstd
              numThreads a size temp st _ _ _ _ _ _ Hn Hm HlenP HlenX Hs HlenTP HlenTX)
    as (X' & TX' & ev & Hrun & Hp & Hsorted & HlenTX' & _).
  eexists. split; [exact Hrun|]. cbn [main scratch].
  assert (length X' = size) as HlenX' by (by rewrite (Permutation_length Hp)).
  destruct (window_of_parts _ (take a (main st)) X' (drop (a + size) (main st))
              a size eq_refl HlenP HlenX') as (-> & -> & ->).
  destruct (window_of_parts _ (take temp (scratch st)) TX'
              (drop (temp + size) (scratch st)) temp size eq_refl HlenTP HlenTX')
    as (-> & _ & ->).
  split_and!; try done.
  - by apply non_decreasing_StronglySorted.
  - rewrite !length_app, HlenP, HlenX', length_drop. lia.
  - rewrite !length_app, HlenTP, HlenTX', length_drop. lia.
Qed.

Lemma parallelMergeSort_sorts_its_window_witness :
  exists st',
    parallelMergeSort (@insertion_sort Z) kParallel Z.ltb 1 4 2 3
                      (mkSortState [9; 5; 2; 7; 1; 0] [0; 0; 0; 0; 0; 0; 0] [])
    = Some st'
    /\ sub_array (main st') 1 4 ≡ₚ sub_array [9; 5; 2; 7; 1; 0] 1 4
    /\ non_decreasing Z.ltb (sub_array (main st') 1 4)
    /\ take 1 (main st') = take 1 [9; 5; 2; 7; 1; 0]
    /\ drop (1 + 4) (main st') = drop (1 + 4) [9; 5; 2; 7; 1; 0]
    /\ take 2 (scratch st') = take 2 [0; 0; 0; 0; 0; 0; 0]
    /\ drop (2 + 4) (scratch st') = drop (2 + 4) [0; 0; 0; 0; 0; 0; 0]
    /\ length (main st') = length [9; 5; 2; 7; 1; 0]
    /\ length (scratch st') = length [0; 0; 0; 0; 0; 0; 0].
Proof.
  apply (parallelMergeSort_sorts_its_window (@insertion_sort Z) kParallel Z.ltb
           1 4 2 3 (mkSortState [9; 5; 2; 7; 1; 0] [0; 0; 0; 0; 0; 0; 0] [])).
  - exact Z_ltb_StrictWeakOrder.
  - exact insertion_sort_contract.
  - lia.
  - cbn. lia.
  - cbn. lia.
Defined.

(** X13.  Whatever the comparator, also one that is no strict weak order,
    [merge] on a sub-array inside the array with a scratch window inside the
    scratch buffer returns and leaves in the sub-array a permutation of its
    contents: no element is lost or duplicated, and nothing outside the
    sub-array and the window is written. *)
Theorem merge_permutes_for_any_comparator {A : Type} (defaultPolicy : ExecutionPolicy)
    (compareFn : A -> A -> bool) (a size temp : nat) (st : SortState A) :
  (a + size <= length (main st))%nat -> (temp + size <= length (scratch st))%nat ->
  exists st',
    merge defaultPolicy compareFn a size temp st = Some st'
    /\ sub_array (main st') a size ≡ₚ sub_array (main st) a size
    /\ take a (main st') = take a (main st)
    /\ drop (a + size) (main st') = drop (a + size) (main st)
    /\ take temp (scratch st') = take temp (scratch st)
    /\ drop (temp + size) (scratch st') = drop (temp + size) (scratch st).
Proof.
  intros Ha Ht.
  destruct (window_split (main st) a size Ha) as (Hm & HlenP & HlenX).
  destruct (window_split (scratch st) temp size Ht) as (Hs & HlenTP & HlenTX).
  rewrite window_halves in Hm, HlenX.
  set (L := sub_array (main st) a (size / 2)) in *.
  set (R := sub_array (main st) (a + size / 2) (size - size / 2)) in *.
  assert (length L = (size / 2)%nat) as HlenL.
  { unfold L, sub_array. rewrite length_take, length_drop.
    pose proof (half_le size). lia. }
  rewrite length_app in HlenX.
  eexists. split.
  { apply (merge_spec defaultPolicy compareFn a size temp st _ L R _ _ _ _
             Hm HlenP HlenL HlenX Hs HlenTP HlenTX). }
  cbn [main scratch].
  assert (length (merge_lists compareFn L R) = size) as HlenM
    by (rewrite merge_lists_length; lia).
  destruct (window_of_parts _ (take a (main st)) (merge_lists compareFn L R)
              (drop (a + size) (main st)) a size eq_refl HlenP HlenM)
    as (-> & -> & ->).
  destruct (window_of_parts _ (take temp (scratch st)) (merge_lists compareFn L R)
              (drop (temp + size) (scratch st)) temp size eq_refl HlenTP HlenM)
    as (-> & _ & ->).
  rewrite window_halves. fold L R. split_and!; try done.
  apply merge_lists_Permutation.
Qed.

Lemma merge_permutes_for_any_comparator_witness :
  exists st',
    merge kParallel (fun _ _ => true) 1 3 1
          (mkSortState [9; 2; 5; 1; 7] [0; 0; 0; 0; 0] []) = Some st'
    /\ sub_array (main st') 1 3 ≡ₚ sub_array [9; 2; 5; 1; 7] 1 3
    /\ take 1 (main st') = take 1 [9; 2; 5; 1; 7]
    /\ drop (1 + 3) (main st') = drop (1 + 3) [9; 2; 5; 1; 7]
    /\ take 1 (scratch st') = take 1 [0; 0; 0; 0; 0]
    /\ drop (1 + 3) (scratch st') = drop (1 + 3) [0; 0; 0; 0; 0].
Proof.
  apply (merge_permutes_for_any_comparator kParallel (fun _ _ => true) 1 3 1
           (mkSortState [9; 2; 5; 1; 7] [0; 0; 0; 0; 0] [])); cbn; lia.
Defined.

(** ** How the work is divided *)

Lemma tiles_app a b c l1 l2 : tiles a b l1 -> tiles b c l2 -> tiles a c (l1 ++ l2).
Proof.
  revert a. induction l1 as [|r l1 IH]; intros a; cbn.
  - by intros ->.
  - intros [-> ?] ?. eauto.
Qed.

Lemma std_sort_ranges_app ev1 ev2 :
  std_sort_ranges (ev1 ++ ev2) = std_sort_ranges ev1 ++ std_sort_ranges ev2.
Proof. apply omap_app. Qed.

Lemma count_events_app kind ev1 ev2 :
  count_events kind (ev1 ++ ev2)
  = (count_events kind ev1 + count_events kind ev2)%nat.
Proof. unfold count_events. by rewrite List.filter_app, length_app. Qed.

Section WorkDivision.
Context {A : Type}.
Variable std_sort : (A -> A -> bool) -> list A -> list A.
Variable defaultPolicy : ExecutionPolicy.
Variable cmp : A -> A -> bool.
Local Open Scope nat_scope.

Lemma std_sort_range_events a size (st st' : SortState A) :
  std_sort_range std_sort cmp a size st = Some st' ->
  events st' = events st ++ [StdSortCall a size].
Proof. unfold std_sort_range. case_decide; [|done]. by intros [= <-]. Qed.

Lemma merge_events a size temp (st st' : SortState A) :
  merge defaultPolicy cmp a size temp st = Some st' ->
  events st' = events st ++ [MergeCall a size temp].
Proof.
  unfold merge.
  destruct (merge_both _ _ _ _ _ _ _ _ _) as [[[[i1 i2] tempi] tmp]|]; [|done]. cbn.
  destruct (copy_rest _ _ _ _ i1 _ _) as [[[i1' tempi'] tmp']|]; [|done]. cbn.
  destruct (copy_rest _ _ _ _ i2 _ _) as [[[i2' tempi''] tmp'']|]; [|done]. cbn.
  destruct (parallelFor _ _ _ _ _) as [arr'|]; [|done]. cbn. by intros [= <-].
Qed.

Lemma parallelMergeSort_work numThreads :
  forall a size temp (st st' : SortState A),
    1 <= numThreads ->
    parallelMergeSort std_sort defaultPolicy cmp a size temp numThreads st = Some st' ->
    exists ev,
      events st' = events st ++ ev
      /\ length (std_sort_ranges ev) = numThreads
      /\ tiles a (a + size) (std_sort_ranges ev)
      /\ count_events is_merge ev = numThreads - 1
      /\ count_events is_launch ev = 2 * (numThreads - 1).
Proof.
  induction numThreads as [numThreads IH] using lt_wf_ind.
  intros a size temp st st' Hn. simp parallelMergeSort.
  destruct (Nat.eq_dec numThreads 1) as [->|Hne]; cbn.
  - intros Hrun%std_sort_range_events. exists [StdSortCall a size].
    split_and!; try done.
  - destruct (lt_dec 1 numThreads) as [Hgt|]; [|lia]. cbn.
    assert (1 <= numThreads / 2) as Hl by (apply Nat.div_le_lower_bound; lia).
    assert (numThreads / 2 < numThreads) as Hl' by (apply Nat.div_lt; lia).
    pose proof (half_le size) as Hh.
    destruct (parallelMergeSort std_sort defaultPolicy cmp a (size / 2) temp
                (numThreads / 2) _) as [st1|] eqn:Hleft; [|done]. cbn.
    destruct (parallelMergeSort std_sort defaultPolicy cmp (a + size / 2) _ _
                (numThreads - numThreads / 2) _) as [st2|] eqn:Hright; [|done]. cbn.
    intros Hmerge%merge_events.
    destruct (IH _ Hl' _ _ _ _ _ Hl Hleft) as (evL & HevL & HnL & HtL & HmL & HlL).
    destruct (IH (numThreads - numThreads / 2) ltac:(lia) _ _ _ _ _ ltac:(lia) Hright)
      as (evR & HevR & HnR & HtR & HmR & HlR).
    cbn in HevL, HevR.
    exists ([LaunchRangeCall a (size / 2) temp (numThreads / 2)] ++ evL
              ++ [LaunchRangeCall (a + size / 2) (size - size / 2) (temp + size / 2)
                    (numThreads - numThreads / 2)]
              ++ evR ++ [MergeCall a size temp]).
    split_and!.
    + rewrite Hmerge, HevR, HevL. by rewrite <- !app_assoc.
    + rewrite !std_sort_ranges_app, !length_app, HnL, HnR. cbn. lia.
    + rewrite !std_sort_ranges_app. cbn. rewrite app_nil_r.
      eapply tiles_app; [exact HtL|].
      replace (a + size) with (a + size / 2 + (size - size / 2)) by lia. done.
    + rewrite !count_events_app, HmL, HmR. cbn. lia.
    + rewrite !count_events_app, HlL, HlR. cbn. lia.
Qed.
End WorkDivision.

(** X14.  With a worker budget of [numThreads >= 1], a run of
    [parallelMergeSort] on a sub-array calls [std::sort] exactly [numThreads]
    times, on consecutive (possibly empty) pieces that tile the sub-array from
    left to right, launches [2 * (numThreads - 1)] tasks and merges
    [numThreads - 1] times: the budget is conserved by the splits. *)
Theorem parallelMergeSort_divides_the_work {A : Type}
    (std_sort : (A -> A -> bool) -> list A -> list A)
    (defaultPolicy : ExecutionPolicy) (compareFn : A -> A -> bool)
    (a size temp numThreads : nat) (st : SortState A) :
  StrictWeakOrder compareFn -> std_sort_contract std_sort ->
  (1 <= numThreads)%nat ->
  (a + size <= length (main st))%nat -> (temp + size <= length (scratch st))%nat ->
  exists ev,
    mergeSort_events std_sort defaultPolicy compareFn a size temp numThreads st
    = Some ev
    /\ length (std_sort_ranges ev) = numThreads
    /\ tiles a (a + size) (std_sort_ranges ev)
    /\ count_events is_merge ev = (numThreads - 1)%nat
    /\ count_events is_launch ev = (2 * (numThreads - 1))%nat.
Proof.
  intros Hswo Hstd Hn Ha Ht. unfold mergeSort_events.
  destruct (window_split (main st) a size Ha) as (Hm & HlenP & HlenX).
  destruct (window_split (scratch st) temp size Ht) as (Hs & HlenTP & HlenTX).
  destruct (parallelMergeSort_spec std_sort defaultPolicy compareFn Hswo Hstd
              numThreads a size temp (mkSortState (main st) (scratch st) [])
              _ _ _ _ _ _ Hn Hm HlenP HlenX Hs HlenTP HlenTX)
    as (X' & TX' & ev0 & Hrun & _).
  destruct (parallelMergeSort_work std_sort defaultPolicy compareFn numThreads
              _ _ _ _ _ Hn Hrun) as (ev & Hev & Hcount & Htiles & Hmerges & Hlaunch).
  rewrite Hrun. cbn in Hev |- *. exists ev. by rewrite Hev.
Qed.

Lemma parallelMergeSort_divides_the_work_witness :
  exists ev,
    mergeSort_events (@insertion_sort Z) kParallel Z.ltb 1 4 2 3
                     (mkSortState [9; 5; 2; 7; 1; 0] [0; 0; 0; 0; 0; 0; 0] [])
    = Some ev
    /\ length (std_sort_ranges ev) = 3%nat
    /\ tiles 1 (1 + 4) (std_sort_ranges ev)
    /\ count_events is_merge ev = (3 - 1)%nat
    /\ count_events is_launch ev = (2 * (3 - 1))%nat.
Proof.
  apply (parallelMergeSort_divides_the_work (@insertion_sort Z) kParallel Z.ltb
           1 4 2 3 (mkSortState [9; 5; 2; 7; 1; 0] [0; 0; 0; 0; 0; 0; 0] [])).
  - exact Z_ltb_StrictWeakOrder.
  - exact insertion_sort_contract.
  - lia.
  - cbn. lia.
  - cbn. lia.
Defined.

(** ** More on the sort entry points *)

(** X15.  On integers the overload of [parallelSort] without a comparator, which
    sorts with [std::less], leaves in a range inside the array a permutation
    of its contents in ascending order, for both policies and every worker
    hint, and nothing else is changed. *)
Theorem parallelSort_less_ascending
    (std_sort : (Z -> Z -> bool) -> list Z -> list Z)
    (defaultPolicy : ExecutionPolicy) (value_init : Z) (begin end_ : nat)
    (policy : ExecutionPolicy) (numThreadsHint : nat) (arr : list Z) :
  std_sort_contract std_sort ->
  (begin <= end_)%nat -> (end_ <= length arr)%nat ->
  exists out,
    parallelSort_less std_sort defaultPolicy value_init Z.ltb begin end_ policy
                      numThreadsHint arr = Some out
    /\ sub_array out begin (end_ - begin) ≡ₚ sub_array arr begin (end_ - begin)
    /\ (forall i j x y, (i < j)%nat ->
          sub_array out begin (end_ - begin) !! i = Some x ->
          sub_array out begin (end_ - begin) !! j = Some y -> x <= y)
    /\ take begin out = take begin arr /\ drop end_ out = drop end_ arr.
Proof.
  intros Hstd Hbe Hel. unfold parallelSort_less.
  destruct (parallelSort_spec std_sort defaultPolicy value_init Z.ltb begin end_
              policy numThreadsHint arr Z_ltb_StrictWeakOrder Hstd Hbe Hel)
    as (X' & Hrun & Hp & Hs).
  assert (length X' = (end_ - begin)%nat) as HlenX.
  { rewrite (Permutation_length Hp).
    by destruct (sub_array_split begin end_ arr Hbe Hel) as (_ & _ & ?). }
  destruct (sorted_output_frame begin end_ arr X' Hbe Hel HlenX) as (Ht & Hd & Hsub).
  eexists. split; [exact Hrun|]. rewrite Hsub. split_and!; try done.
  apply non_decreasing_StronglySorted in Hs.
  intros i j x y Hij Hi Hj. specialize (Hs i j x y Hij Hi Hj). lia.
Qed.

Lemma parallelSort_less_ascending_witness :
  exists out,
    parallelSort_less (@insertion_sort Z) kParallel 0 Z.ltb 1 6 kParallel 0
                      [9; 5; 3; 1; 4; 2; 0] = Some out
    /\ sub_array out 1 (6 - 1) ≡ₚ sub_array [9; 5; 3; 1; 4; 2; 0] 1 (6 - 1)
    /\ (forall i j x y, (i < j)%nat ->
          sub_array out 1 (6 - 1) !! i = Some x ->
          sub_array out 1 (6 - 1) !! j = Some y -> x <= y)
    /\ take 1 out = take 1 [9; 5; 3; 1; 4; 2; 0]
    /\ drop 6 out = drop 6 [9; 5; 3; 1; 4; 2; 0].
Proof.
  apply (parallelSort_less_ascending (@insertion_sort Z) kParallel 0 1 6 kParallel 0
           [9; 5; 3; 1; 4; 2; 0]).
  - exact insertion_sort_contract.
  - lia.
  - cbn. lia.
Defined.

(** X16.  A range of at most one element is returned as it is: [parallelSort]
    gives back the array unchanged, for both policies and every worker hint
    (with several workers the element still goes through the scratch buffer
    and back). *)
Theorem parallelSort_short_range_unchanged {A : Type}
    (std_sort : (A -> A -> bool) -> list A -> list A)
    (defaultPolicy : ExecutionPolicy) (value_init : A)
    (compareFn : A -> A -> bool) (begin end_ : nat)
    (policy : ExecutionPolicy) (numThreadsHint : nat) (arr : list A) :
  StrictWeakOrder compareFn -> std_sort_contract std_sort ->
  (begin <= end_)%nat -> (end_ <= begin + 1)%nat -> (end_ <= length arr)%nat ->
  parallelSort std_sort defaultPolicy value_init compareFn begin end_ policy
               numThreadsHint arr = Some arr.
Proof.
  intros Hswo Hstd Hbe Hshort Hel.
  destruct (parallelSort_spec std_sort defaultPolicy value_init compareFn begin end_
              policy numThreadsHint arr Hswo Hstd Hbe Hel) as (X' & -> & Hp & _).
  destruct (sub_array_split begin end_ arr Hbe Hel) as (Harr & _ & Hlen).
  assert (X' = sub_array arr begin (end_ - begin)) as ->.
  { destruct (sub_array arr begin (end_ - begin)) as [|x [|y l]]; cbn in Hlen.
    - by apply Permutation_nil_r.
    - by apply Permutation_singleton_r.
    - lia. }
  by rewrite <- Harr.
Qed.

Lemma parallelSort_short_range_unchanged_witness :
  parallelSort (@insertion_sort Z) kParallel 0 Z.ltb 2 3 kParallel 4 [4; 3; 2; 1]
  = Some [4; 3; 2; 1].
Proof.
  apply (parallelSort_short_range_unchanged (@insertion_sort Z) kParallel 0 Z.ltb
           2 3 kParallel 4 [4; 3; 2; 1]).
  - exact Z_ltb_StrictWeakOrder.
  - exact insertion_sort_contract.
  - lia.
  - lia.
  - cbn. lia.
Defined.

(** X17.  The result of [parallelSort] does not depend on the worker count
    beyond the placement of tied elements: for any two choices of policy and
    worker hint the outputs hold tied elements at every position, and they are
    equal when no two distinct elements of the array are tied. *)
Theorem parallelSort_independent_of_workers {A : Type}
    (std_sort : (A -> A -> bool) -> list A -> list A)
    (defaultPolicy : ExecutionPolicy) (value_init : A)
    (compareFn : A -> A -> bool) (begin end_ : nat)
    (policy1 policy2 : ExecutionPolicy) (hint1 hint2 : nat) (arr : list A) :
  StrictWeakOrder compareFn -> std_sort_contract std_sort ->
  (begin <= end_)%nat -> (end_ <= length arr)%nat ->
  exists out1 out2,
    parallelSort std_sort defaultPolicy value_init compareFn begin end_ policy1
                 hint1 arr = Some out1
    /\ parallelSort std_sort defaultPolicy value_init compareFn begin end_ policy2
                    hint2 arr = Some out2
    /\ Forall2 (tied compareFn) out1 out2
    /\ ((forall x y, x ∈ arr -> y ∈ arr -> tied compareFn x y -> x = y) ->
        out1 = out2).
Proof.
  intros Hswo Hstd Hbe Hel.
  destruct (parallelSort_spec std_sort defaultPolicy value_init compareFn begin end_
              policy1 hint1 arr Hswo Hstd Hbe Hel) as (X1 & Hrun1 & Hp1 & Hs1).
  destruct (parallelSort_spec std_sort defaultPolicy value_init compareFn begin end_
              policy2 hint2 arr Hswo Hstd Hbe Hel) as (X2 & Hrun2 & Hp2 & Hs2).
  destruct (sub_array_split begin end_ arr Hbe Hel) as (Harr & _ & _).
  assert (Forall2 (tied compareFn) (take begin arr ++ X1 ++ drop end_ arr)
                  (take begin arr ++ X2 ++ drop end_ arr)) as Htied.
  { apply Forall2_app; [by apply tied_refl_all|].
    apply Forall2_app; [|by apply tied_refl_all].
    apply sorted_permutations_tied; [done..|]. by rewrite Hp1, Hp2. }
  eexists _, _. split_and!; [exact Hrun1|exact Hrun2|exact Htied|].
  intros Hdistinct. apply (tied_distinct_eq compareFn _ _ Htied).
  intros x y Hx Hy. apply Hdistinct.
  - rewrite Harr, <- Hp1. done.
  - rewrite Harr, <- Hp2. done.
Qed.

Lemma parallelSort_independent_of_workers_witness :
  exists out1 out2,
    parallelSort (@insertion_sort Z) kParallel 0 Z.ltb 0 5 kParallel 3
                 [5; 3; 1; 4; 2] = Some out1
    /\ parallelSort (@insertion_sort Z) kParallel 0 Z.ltb 0 5 kParallel 8
                    [5; 3; 1; 4; 2] = Some out2
    /\ Forall2 (tied Z.ltb) out1 out2
    /\ ((forall x y, x ∈ [5; 3; 1; 4; 2] -> y ∈ [5; 3; 1; 4; 2] ->
                     tied Z.ltb x y -> x = y) -> out1 = out2).
Proof.
  apply (parallelSort_independent_of_workers (@insertion_sort Z) kParallel 0 Z.ltb
           0 5 kParallel kParallel 3 8 [5; 3; 1; 4; 2]).
  - exact Z_ltb_StrictWeakOrder.
  - exact insertion_sort_contract.
  - lia.
  - cbn. lia.
Defined.
